(** * remotestorage.js: the local IndexedDB store and the HTTP transport

    A shallow embedding of [src/indexeddb.js] (node store, directory index,
    change log, conflicts) and of [src/lib/getputdelete.js] (transport),
    with the properties of the written specification stated over it.

    Conventions of the embedding.
    - A JavaScript string is a [string]; its characters are compared by code,
      as IndexedDB compares string keys.
    - An object store with [keyPath: 'path'] is a [gmap] from the path to the
      stored record.
    - A transaction is a function on the store's map.  A handler that raises
      ([TypeError] on [undefined], [DataError] on a bad key) aborts the
      transaction: the map is rolled back and the promise is rejected. *)

From Stdlib Require Import Ascii String.
From stdpp Require Import gmap strings list sorting fin_maps.

Open Scope string_scope.

(** ** Paths *)

Module Path.

(** [path[path.length - 1]]: [None] is [undefined] (empty path). *)
Fixpoint last_char (s : string) : option ascii :=
  match s with
  | EmptyString => None
  | String c EmptyString => Some c
  | String _ rest => last_char rest
  end.

(** [path[path.length - 1] == '/'] *)
Definition is_dir (s : string) : bool :=
  match last_char s with
  | Some c => bool_decide (c = "/"%char)
  | None => false
  end.

(** The characters the regular expression's [.] accepts: everything but
    the line terminators (of which LF and CR are 8-bit characters). *)
Definition dot (c : ascii) : bool :=
  negb (bool_decide (c = "010"%char) || bool_decide (c = "013"%char)).

(** [[^\/]+\/?$]: a non-empty run without slash, then at most one slash. *)
Fixpoint is_basename (s : string) : bool :=
  match s with
  | EmptyString => false
  | String c rest =>
      negb (bool_decide (c = "/"%char)) &&
      (bool_decide (rest = "") || bool_decide (rest = "/") || is_basename rest)
  end.

(** The strings that [.*] and [[^\/]*] match as a whole. *)
Fixpoint all_dot (s : string) : bool :=
  match s with
  | EmptyString => true
  | String c rest => dot c && all_dot rest
  end.

Fixpoint no_slash (s : string) : bool :=
  match s with
  | EmptyString => true
  | String c rest => negb (bool_decide (c = "/"%char)) && no_slash rest
  end.

(** [path.match(/^(.*\/)([^\/]+\/?)$/)]: the pair [(parts[1], parts[2])],
    or [None] when the expression does not match. *)
Fixpoint match_parts (s : string) : option (string * string) :=
  match s with
  | EmptyString => None
  | String c rest =>
      match match_parts rest with
      | Some (d, b) => if dot c then Some (String c d, b) else None
      | None =>
          if bool_decide (c = "/"%char) && is_basename rest
          then Some ("/", rest) else None
      end
  end.

(** [key.substr(0, path.length) == path] *)
Definition starts_with (path key : string) : bool :=
  bool_decide (substring 0 (String.length path) key = path).

End Path.

(** ** The IndexedDB store ([src/indexeddb.js]) *)

Module IndexedDB.

(** Values held in a node's [body] and [cached] properties: a text payload
    or a plain object whose keys are child names marked [true]. *)
Inductive jsval :=
  | JStr (s : string)
  | JMap (m : gmap string bool).

(** A record of the "nodes" store.  Its [path] property is the key it is
    stored under; [None] is a property that is [undefined]. *)
Record node := Node {
  body : option jsval;
  cached : option jsval;
  contentType : option string;
  revision : option string
}.

(** The [key] argument of the directory walks: ['body'] or ['cached']. *)
Inductive ns := Body | Cached.

(** A record of the "changes" store: a plain object, [path] included. *)
Inductive cval :=
  | CStr (s : string)
  | CObj (o : gmap string string).

Record change_event := ChangeEvent {
  ev_path : string;
  origin : string;
  oldValue : option jsval;
  newValue : option jsval
}.

Inductive event :=
  | Change (e : change_event)
  | Conflict (fields : gmap string string).

(** What an operation does besides changing the stores, in order. *)
Inductive effect :=
  | Transaction (objectStore mode : string)
  | Emit (e : event).

Inductive completion :=
  | Returned
  | Fulfilled (status : option nat)
  | Rejected
  | Threw (msg : string).

Record db := DB {
  nodes : gmap string node;
  changes : gmap string (gmap string cval)
}.

Record outcome := Outcome {
  result : completion;
  store : db;
  trace : list effect
}.

Global Instance jsval_eq_dec : EqDecision jsval.
Proof. solve_decision. Defined.
Global Instance node_eq_dec : EqDecision node.
Proof. solve_decision. Defined.
Global Instance ns_eq_dec : EqDecision ns.
Proof. solve_decision. Defined.
Global Instance cval_eq_dec : EqDecision cval.
Proof. solve_decision. Defined.

(** *** Directory index *)

Definition get_ns (key : ns) (n : node) : option jsval :=
  match key with Body => body n | Cached => cached n end.

Definition set_ns (key : ns) (v : jsval) (n : node) : node :=
  match key with
  | Body => Node (Some v) (cached n) (contentType n) (revision n)
  | Cached => Node (body n) (Some v) (contentType n) (revision n)
  end.

(** [Object.keys(v).length]: the own keys of an object, the indices of a
    string (as engines do since ES2015). *)
Definition keys_length (v : jsval) : nat :=
  match v with
  | JStr s => String.length s
  | JMap m => size m
  end.

(** [keepDirNode(node)]; [None] is the [TypeError] of [Object.keys] on
    [undefined].  The right operand of [||] is evaluated only when the left
    one is false. *)
Definition keepDirNode (n : node) : option bool :=
  match body n with
  | None => None
  | Some b =>
      if bool_decide (0 < keys_length b) then Some true
      else match cached n with
           | None => None
           | Some c => Some (bool_decide (0 < keys_length c))
           end
  end.

(** [node[key][basename] = true]; [None] is the [TypeError] raised when
    [node[key]] is [undefined].  In this (sloppy-mode) file a write to a
    property of a primitive string is dropped. *)
Definition mark_child (key : ns) (basename : string) (n : node) : option node :=
  match get_ns key n with
  | None => None
  | Some (JMap m) => Some (set_ns key (JMap (<[basename := true]> m)) n)
  | Some (JStr _) => Some n
  end.

(** [delete node[key][basename]] *)
Definition unmark_child (key : ns) (basename : string) (n : node) : option node :=
  match get_ns key n with
  | None => None
  | Some (JMap m) => Some (set_ns key (JMap (base.delete basename m)) n)
  | Some (JStr _) => Some n
  end.

Definition makeNode (path : string) : node :=
  if Path.is_dir path
  then Node (Some (JMap ∅)) (Some (JMap ∅)) (Some "application/json") None
  else Node None None None None.

(** [removeFromParent(nodes, path, key)], run inside the caller's
    transaction.  [None]: a handler raised.  The recursion is on
    [dirname], a proper prefix of [path]; [fuel] bounds it. *)
Fixpoint removeFromParent_fuel (fuel : nat) (nodes : gmap string node)
    (path : string) (key : ns) : option (gmap string node) :=
  match fuel with
  | 0 => Some nodes
  | S fuel =>
      match Path.match_parts path with
      | None => Some nodes
      | Some (dirname, basename) =>
          match nodes !! dirname with
          | None => None
          | Some n =>
              n' ← unmark_child key basename n;
              keep ← keepDirNode n';
              if keep : bool then Some (<[dirname := n']> nodes)
              else
                let nodes' := base.delete dirname nodes in
                if bool_decide (dirname ≠ "/")
                then removeFromParent_fuel fuel nodes' dirname key
                else Some nodes'
          end
      end
  end.

Definition removeFromParent (nodes : gmap string node) (path : string)
    (key : ns) : option (gmap string node) :=
  removeFromParent_fuel (String.length path) nodes path key.

(** [addToParent(nodes, path, key)] *)
Fixpoint addToParent_fuel (fuel : nat) (nodes : gmap string node)
    (path : string) (key : ns) : option (gmap string node) :=
  match fuel with
  | 0 => Some nodes
  | S fuel =>
      match Path.match_parts path with
      | None => Some nodes
      | Some (dirname, basename) =>
          let n := default (makeNode dirname) (nodes !! dirname) in
          n' ← mark_child key basename n;
          let nodes' := <[dirname := n']> nodes in
          if bool_decide (dirname ≠ "/")
          then addToParent_fuel fuel nodes' dirname key
          else Some nodes'
      end
  end.

Definition addToParent (nodes : gmap string node) (path : string)
    (key : ns) : option (gmap string node) :=
  addToParent_fuel (String.length path) nodes path key.

(** The pairs [(dirname, basename)] a walk from [path] goes through. *)
Fixpoint ancestors_fuel (fuel : nat) (path : string) : list (string * string) :=
  match fuel with
  | 0 => []
  | S fuel =>
      match Path.match_parts path with
      | None => []
      | Some (dirname, basename) =>
          (dirname, basename) ::
          if bool_decide (dirname ≠ "/") then ancestors_fuel fuel dirname else []
      end
  end.

Definition ancestors (path : string) : list (string * string) :=
  ancestors_fuel (String.length path) path.

(** The shape of the stores this interface builds: under a key that ends in
    a slash, [body] and [cached] are child maps. *)
Definition is_directory (n : node) : Prop :=
  ∃ mb mc, body n = Some (JMap mb) ∧ cached n = Some (JMap mc).

Definition directories_ok (nodes : gmap string node) : Prop :=
  ∀ k n, nodes !! k = Some n → Path.is_dir k = true → is_directory n.

(** *** Change log *)

(** [changes.put(change)]: the key is the record's [path] property, which
    must be a valid key ([DataError] otherwise). *)
Definition put_change (cs : gmap string (gmap string cval))
    (change : gmap string cval) : option (gmap string (gmap string cval)) :=
  match change !! "path" with
  | Some (CStr k) => Some (<[k := change]> cs)
  | _ => None
  end.

Definition _recordChange (st : db) (path : string)
    (attributes : gmap string cval) : outcome :=
  let change := default ∅ (changes st !! path) in
  let change := <["path" := CStr path]> change in
  let change := attributes ∪ change in
  match put_change (changes st) change with
  | Some cs =>
      Outcome (Fulfilled None) (DB (nodes st) cs)
              [Transaction "changes" "readwrite"]
  | None => Outcome Rejected st [Transaction "changes" "readwrite"]
  end.

(** The record [_recordChange] builds: the stored one (or an empty object),
    its [path] set, the attributes written over it. *)
Definition merged_change (st : db) (path : string)
    (attributes : gmap string cval) : gmap string cval :=
  attributes ∪ <["path" := CStr path]> (default ∅ (changes st !! path)).

Definition clearChange (st : db) (path : string) : outcome :=
  Outcome (Fulfilled None) (DB (nodes st) (base.delete path (changes st)))
          [Transaction "changes" "readwrite"].

(** The cursor of [openCursor(IDBKeyRange.lowerBound(path))]: the records
    with a key not below [path], in ascending key order. *)
Definition key_le (a b : string * gmap string cval) : Prop := (a.1 ≤ b.1)%string.

Global Instance key_le_dec : RelDecision key_le.
Proof. intros a b. unfold key_le. apply _. Defined.

Definition openCursor (lower : string) (cs : gmap string (gmap string cval))
    : list (string * gmap string cval) :=
  filter (λ kv, (lower ≤ kv.1)%string) (merge_sort key_le (map_to_list cs)).

(** The [onsuccess] handler of [changesBelow]: push and [continue] while
    the key starts with [path]; the first other key ends the iteration. *)
Fixpoint changesBelow_scan (path : string)
    (cursor : list (string * gmap string cval))
    : list (string * gmap string cval) :=
  match cursor with
  | [] => []
  | (k, v) :: rest =>
      if Path.starts_with path k then (k, v) :: changesBelow_scan path rest
      else []
  end.

Definition changesBelow (st : db) (path : string) : list (gmap string cval) :=
  (changesBelow_scan path (openCursor path (changes st))).*2.

(** *** Node store *)

Definition get (st : db) (path : string) : option node := nodes st !! path.

Definition getRevision (st : db) (path : string) : option string :=
  n ← nodes st !! path; revision n.

Definition aborted (st : db) : outcome :=
  Outcome Rejected st [Transaction "nodes" "readwrite"].

(** What [transaction.oncomplete] of [put] and [delete] does after the
    event: [_recordChange] unless [incoming]. *)
Definition completed (st : db) (path : string) (incoming : bool)
    (action : string) (events : list effect) : outcome :=
  if incoming
  then Outcome (Fulfilled (Some 200)) st
               (Transaction "nodes" "readwrite" :: events)
  else
    let o := _recordChange st path {["action" := CStr action]} in
    Outcome (Fulfilled (Some 200)) (store o)
            (Transaction "nodes" "readwrite" :: events ++ trace o).

Definition origin_of (incoming : bool) : string :=
  if incoming then "remote" else "window".

(** [put(path, body, contentType, incoming)].  With a string path and a
    storable body nothing raises inside the two [try] blocks, so their
    [catch] branches do not show; what can raise is a handler of the walk,
    which runs later and outside them. *)
Definition put (st : db) (path : string) (body : jsval)
    (contentType : string) (incoming : bool) : outcome :=
  if Path.is_dir path then Outcome (Threw "Bad: don't PUT folders") st []
  else
    let oldNode := nodes st !! path in
    let n := Node (Some body) None (Some contentType) None in
    match addToParent (<[path := n]> (nodes st)) path Body with
    | None => aborted st
    | Some nodes' =>
        completed (DB nodes' (changes st)) path incoming "PUT"
          [Emit (Change (ChangeEvent path (origin_of incoming)
                           (oldNode ≫= IndexedDB.body) (Some body)))]
    end.

Definition delete (st : db) (path : string) (incoming : bool) : outcome :=
  if Path.is_dir path then Outcome (Threw "Bad: don't DELETE folders") st []
  else
    let oldNode := nodes st !! path in
    match removeFromParent (base.delete path (nodes st)) path Body with
    | None => aborted st
    | Some nodes' =>
        completed (DB nodes' (changes st)) path incoming "DELETE"
          match oldNode with
          | Some old =>
              [Emit (Change (ChangeEvent path (origin_of incoming)
                               (IndexedDB.body old) None))]
          | None => []
          end
    end.

(** [setRevision(path, revision)], that is [setRevisions] of one pair. *)
Definition setRevision (st : db) (path : string) (rev : string) : outcome :=
  let n := default (makeNode path) (nodes st !! path) in
  let n := Node (IndexedDB.body n) (cached n) (IndexedDB.contentType n) (Some rev) in
  match addToParent (<[path := n]> (nodes st)) path Cached with
  | None => aborted st
  | Some nodes' =>
      Outcome (Fulfilled None) (DB nodes' (changes st))
              [Transaction "nodes" "readwrite"]
  end.

(** *** Conflicts *)

(** [setConflict(path, attributes)]: the event is emitted once the change
    is recorded. *)
Definition setConflict (st : db) (path : string)
    (attributes : gmap string string) : outcome :=
  let event := attributes ∪ {["path" := path]} in
  let o := _recordChange st path {["conflict" := CObj attributes]} in
  match result o with
  | Fulfilled _ =>
      Outcome Returned (store o) (trace o ++ [Emit (Conflict event)])
  | _ => Outcome Returned (store o) (trace o)
  end.

(** [event.resolve(resolution)], with the [attributes] object it closes
    over; the second component is that object after the call. *)
Definition resolve (st : db) (path : string) (attributes : gmap string string)
    (resolution : string) : outcome * gmap string string :=
  if bool_decide (resolution = "remote") || bool_decide (resolution = "local")
  then
    let attributes := <["resolution" := resolution]> attributes in
    let o := _recordChange st path {["conflict" := CObj attributes]} in
    (Outcome Returned (store o) (trace o), attributes)
  else
    (Outcome (Threw ("Invalid resolution: " +:+ resolution)) st [],
     attributes).

(** The [conflict] block of the change stored at [path], and its
    [resolution] field. *)
Definition stored_conflict (st : db) (path : string) : option (gmap string string) :=
  c ← changes st !! path;
  v ← c !! "conflict";
  match v with CObj o => Some o | CStr _ => None end.

Definition stored_resolution (st : db) (path : string) : option string :=
  o ← stored_conflict st path; o !! "resolution".

(** The change events an operation handed to the subscribers, in order. *)
Definition emitted (o : outcome) : list change_event :=
  omap (λ e, match e with Emit (Change c) => Some c | _ => None end) (trace o).

(** The transactions an operation opened. *)
Definition transactions (o : outcome) : list (string * string) :=
  omap (λ e, match e with Transaction s m => Some (s, m) | _ => None end)
       (trace o).

(** *** Opening, upgrading and resetting the database *)

(** The object stores of a database by name, each with its records by key. *)
Abbreviation database A := (gmap string (gmap string A)) (only parsing).

(** [db.createObjectStore(name, { keyPath: 'path' })]: a new, empty store;
    [ConstraintError] when a store of that name exists. *)
Definition createObjectStore {A} (db : database A) (name : string)
    : option (database A) :=
  if bool_decide (is_Some (db !! name)) then None else Some (<[name := ∅]> db).

(** [dbOpen.onupgradeneeded]. *)
Definition onupgradeneeded {A} (oldVersion : nat) (db : database A)
    : option (database A) :=
  db' ← (if bool_decide (oldVersion ≠ 1) then createObjectStore db "nodes"
         else Some db);
  createObjectStore db' "changes".

(** How [RS.IndexedDB.open] ends, and the first argument its callback gets:
    [callback(null, dbOpen.result)] on success, [callback(dbOpen.error)] on
    error, [callback("timeout trying to open db")] when the timer fires. *)
Inductive open_outcome (H : Type) :=
  | Opened (result : H)
  | OpenError (error : string)
  | OpenTimeout.
Arguments Opened {H}.
Arguments OpenError {H}.
Arguments OpenTimeout {H}.

Inductive first_argument :=
  | ArgNull
  | ArgError (error : string)
  | ArgString (s : string).

Definition open_callback_argument {H} (o : open_outcome H) : first_argument :=
  match o with
  | Opened _ => ArgNull
  | OpenError e => ArgError e
  | OpenTimeout => ArgString "timeout trying to open db"
  end.

(** [other.db]: reading a property of [null] raises a [TypeError] ([None]);
    an error object and a string have no such property ([undefined]). *)
Definition db_property {H} (other : first_argument) : option (option H) :=
  match other with
  | ArgNull => None
  | ArgError _ | ArgString _ => Some None
  end.

Record reset_outcome (H : Type) := ResetOutcome {
  self_db : option H;
  called_back : bool;
  raised : bool
}.
Arguments ResetOutcome {H}.
Arguments self_db {H}.
Arguments called_back {H}.
Arguments raised {H}.

(** [reset(callback)] on a store whose [this.db] is [old]: [deleted] tells
    whether [deleteDatabase] succeeded ([clean] calls back only then), [o] how
    the following [open] ends. *)
Definition reset {H} (old : H) (deleted : bool) (o : open_outcome H)
    : reset_outcome H :=
  if deleted then
    match db_property (open_callback_argument o) with
    | None => ResetOutcome (Some old) false true
    | Some db => ResetOutcome db true false
    end
  else ResetOutcome (Some old) false false.

(** *** The requests of a transaction *)

(** A request placed against the "nodes" store, with what its [onsuccess]
    handler does: the handler of a [get] sees the result and places further
    requests, or raises ([None]); the handler of a [put] places further
    requests. *)
#[warnings="-register-all"] Inductive request :=
  | GetRequest (key : string) (onsuccess : option node → option (list request))
  | PutRequest (key : string) (value : node) (onsuccess : list request).

Inductive run_result :=
  | Committed (nodes : gmap string node)
  | Aborted
  | Pending.

(** A transaction executes its requests in the order they were placed; the
    requests a handler places go to the end of the queue.  A handler that
    raises aborts the transaction.  [fuel] bounds the number of requests
    executed ([Pending]: more are waiting). *)
Fixpoint run (fuel : nat) (nodes : gmap string node) (queue : list request)
    : run_result :=
  match queue with
  | [] => Committed nodes
  | r :: rest =>
      match fuel with
      | 0 => Pending
      | S fuel =>
          match r with
          | GetRequest k onsuccess =>
              match onsuccess (nodes !! k) with
              | None => Aborted
              | Some placed => run fuel nodes (rest ++ placed)
              end
          | PutRequest k v placed => run fuel (<[k := v]> nodes) (rest ++ placed)
          end
      end
  end.

(** The requests of [addToParent(nodes, path, key)], along the pairs
    [(dirname, basename)] of the walk. *)
Fixpoint walk_requests (key : ns) (walk : list (string * string))
    : list request :=
  match walk with
  | [] => []
  | (dirname, basename) :: rest =>
      [GetRequest dirname (λ result,
         n' ← mark_child key basename (default (makeNode dirname) result);
         Some [PutRequest dirname n' (walk_requests key rest)])]
  end.

Definition addToParent_requests (path : string) (key : ns) : list request :=
  walk_requests key (ancestors path).

(** [setRevisions(revs)]: [forEach] places one [get] per pair; the handler
    of each sets the revision, places the [put], and the handler of that
    starts the walk under ['cached']. *)
Definition setRevisions_requests (revs : list (string * string))
    : list request :=
  (λ rev : string * string,
     GetRequest rev.1 (λ result,
       let n := default (makeNode rev.1) result in
       Some [PutRequest rev.1
               (Node (body n) (cached n) (contentType n) (Some rev.2))
               (addToParent_requests rev.1 Cached)])) <$> revs.

(** The number of requests [setRevisions] places in all. *)
Definition setRevisions_fuel (revs : list (string * string)) : nat :=
  sum_list ((λ rev : string * string,
               2 + 2 * length (ancestors rev.1)) <$> revs).

Definition setRevisions (st : db) (revs : list (string * string)) : outcome :=
  match run (setRevisions_fuel revs) (nodes st) (setRevisions_requests revs) with
  | Committed nodes' =>
      Outcome (Fulfilled None) (DB nodes' (changes st))
              [Transaction "nodes" "readwrite"]
  | _ => aborted st
  end.

(** The walk of [addToParent], pair by pair. *)
Fixpoint walk_seq (key : ns) (walk : list (string * string))
    (nodes : gmap string node) : option (gmap string node) :=
  match walk with
  | [] => Some nodes
  | (dirname, basename) :: rest =>
      n' ← mark_child key basename (default (makeNode dirname) (nodes !! dirname));
      walk_seq key rest (<[dirname := n']> nodes)
  end.

Definition lift (r : option (gmap string node)) : run_result :=
  match r with Some nodes => Committed nodes | None => Aborted end.

(** Queues that cannot raise on a store whose directory keys hold directory
    nodes: every [get] handler accepts such a result, every [put] at a
    directory key stores a directory node, and at most [n] requests are
    executed in all. *)
#[warnings="-register-all"] Inductive sound : nat → list request → Prop :=
  | sound_nil n : sound n []
  | sound_get n a b k h rest :
      (∀ result,
         (Path.is_dir k = true → ∀ v, result = Some v → is_directory v) →
         ∃ placed, h result = Some placed ∧ sound a placed) →
      sound b rest → S (a + b) <= n →
      sound n (GetRequest k h :: rest)
  | sound_put n a b k v placed rest :
      (Path.is_dir k = true → is_directory v) →
      sound a placed → sound b rest → S (a + b) <= n →
      sound n (PutRequest k v placed :: rest).

(** *** Reading *)




(** The order of a cursor over a store: ascending keys. *)
Definition entry_le {A} (a b : string * A) : Prop := (a.1 ≤ b.1)%string.

Definition entry_le_dec {A} : RelDecision (@entry_le A).
Proof. intros a b. unfold entry_le. apply _. Defined.

Definition cursor_order {A} (m : gmap string A) : list (string * A) :=
  @merge_sort _ entry_le entry_le_dec (map_to_list m).

(** [path.substr(-1)] *)
Definition substr_last (s : string) : string :=
  match Path.last_char s with
  | Some c => String c ""
  | None => ""
  end.

(** [fireInitial()]: a cursor over all nodes; one event for each key that
    does not end in a slash. *)
Definition fireInitial (st : db) : list effect :=
  Transaction "nodes" "readonly" ::
  omap (λ kv : string * node,
          if bool_decide (substr_last kv.1 ≠ "/")
          then Some (Emit (Change (ChangeEvent kv.1 "remote" None (body kv.2))))
          else None)
       (cursor_order (nodes st)).

(** *** Consistency of the directory index *)

(** [b] is a key of the child map [v]. *)
Definition lists (b : string) (v : option jsval) : Prop :=
  ∃ m, v = Some (JMap m) ∧ is_Some (m !! b).

(** The node at [p] is listed by its parent directory, in [body] or in
    [cached]; a path that [match_parts] does not split has no parent. *)
Definition listed (nodes : gmap string node) (p : string) : Prop :=
  match Path.match_parts p with
  | None => True
  | Some (d, b) =>
      ∃ n, nodes !! d = Some n ∧ (lists b (body n) ∨ lists b (cached n))
  end.

Definition index_ok (nodes : gmap string node) : Prop :=
  ∀ p, is_Some (nodes !! p) → listed nodes p.

Definition consistent (nodes : gmap string node) : Prop :=
  directories_ok nodes ∧ index_ok nodes.


(** [n'] lists whatever [n] lists. *)
Definition extends (n n' : node) : Prop :=
  ∀ b, (lists b (body n) → lists b (body n')) ∧
       (lists b (cached n) → lists b (cached n')).

(** The documents of a store, in key order. *)
Definition documents (st : db) : list (string * node) :=
  filter (λ kv, Path.is_dir kv.1 = false) (cursor_order (nodes st)).

(** *** Sample stores *)

(** A store whose document ["x"] carries the revision ["r1"]. *)
Definition revised_store : db :=
  DB {["x" := Node (Some (JStr "old")) None (Some "text/plain") (Some "r1")]} ∅.

(** The change log of the specification's example. *)
Definition example_changes : gmap string (gmap string cval) :=
  {[ "a/x" := {["path" := CStr "a/x"; "action" := CStr "PUT"]};
     "a/y/z" := {["path" := CStr "a/y/z"; "action" := CStr "DELETE"]};
     "b/w" := {["path" := CStr "b/w"; "action" := CStr "PUT"]} ]}.

(** The store after [put("/a", "v", "text/plain")] into an empty one. *)
Definition rooted_store : db :=
  DB {[ "/" := Node (Some (JMap {["a" := true]})) (Some (JMap ∅))
                    (Some "application/json") None;
        "/a" := Node (Some (JStr "v")) None (Some "text/plain") None ]}
     ∅.

End IndexedDB.

(** ** The transport ([src/lib/getputdelete.js]) *)

Module GetPutDelete.

(** The JavaScript values the transport tells apart. *)
Inductive value :=
  | Undefined
  | Null
  | Str (s : string)
  | ArrayBuffer (bytes : list Byte.byte)
  | Number (n : Z)
  | Boolean (b : bool)
  | Object
  | Function.

Definition typeof (v : value) : string :=
  match v with
  | Undefined => "undefined"
  | Null | ArrayBuffer _ | Object => "object"
  | Str _ => "string"
  | Number _ => "number"
  | Boolean _ => "boolean"
  | Function => "function"
  end.

Definition instanceof_ArrayBuffer (v : value) : bool :=
  match v with ArrayBuffer _ => true | _ => false end.

(** [ToBoolean] *)
Definition truthy (v : value) : bool :=
  match v with
  | Undefined | Null => false
  | Str s => negb (bool_decide (s = ""))
  | Number n => negb (bool_decide (n = 0%Z))
  | Boolean b => b
  | ArrayBuffer _ | Object | Function => true
  end.

(** The object handed to [platform.ajax]. *)
Record request := Request {
  url : string;
  method : string;
  timeout : value;
  headers : gmap string string;
  data : option value
}.

(** What a call does, in order: invoke the caller's callback with an
    [Error], or hand a request to [platform.ajax]. *)
Inductive effect :=
  | Callback (error : string)
  | Ajax (r : request).

(** [doCall(method, url, body, mimeType, token, deadLine)]: the request it
    builds and issues ([util.makePromise] runs the function it is given, and
    [platform.ajax] is the only access to the network; the constant [fields]
    of the request is left out).  A [mimeType] or [token] that is [None] or
    empty is falsy. *)
Definition doCall (method url : string) (body : value)
    (mimeType token : option string) (deadLine : value) : list effect :=
  let headers : gmap string string := ∅ in
  let headers :=
    match token with
    | Some t => if bool_decide (t = "") then headers
                else <["Authorization" := "Bearer " +:+ t]> headers
    | None => headers
    end in
  let headers :=
    match mimeType with
    | Some m =>
        if bool_decide (m = "") then headers
        else
          let m := if bool_decide (typeof body = "object") &&
                      instanceof_ArrayBuffer body
                   then m +:+ "; charset=binary" else m in
          <["Content-Type" := m]> headers
    | None => headers
    end in
  [Ajax (Request url method
           (if truthy deadLine then deadLine else Number 5000)
           headers
           (if bool_decide (method ≠ "GET") then Some body else None))].

Definition get (url : string) (token : option string) : list effect :=
  doCall "GET" url Null None token Undefined.

(** [put(url, value, mimeType, token, cb)]: after [cb(new Error(...))] the
    function goes on to [doCall]. *)
Definition put (url : string) (v : value) (mimeType token : option string)
    : list effect :=
  (if negb (bool_decide (typeof v = "string") ||
            (bool_decide (typeof v = "object") && instanceof_ArrayBuffer v))
   then [Callback ("invalid value given to PUT, only strings allowed, got "
                   +:+ typeof v)]
   else []) ++
  doCall "PUT" url v mimeType token Function.

Definition set (url : string) (valueStr : value)
    (mimeType token : option string) : list effect :=
  if bool_decide (typeof valueStr = "undefined")
  then doCall "DELETE" url Null None token Function
  else put url valueStr mimeType token.

Definition is_callback (e : effect) : bool :=
  match e with Callback _ => true | Ajax _ => false end.

Definition is_ajax (e : effect) : bool :=
  match e with Ajax _ => true | Callback _ => false end.

(** *** Responses *)

Definition defaultContentType : string := "application/octet-stream".

(** [contentType.split(';')[0]] *)
Fixpoint before_semicolon (s : string) : string :=
  match s with
  | EmptyString => EmptyString
  | String c rest =>
      if bool_decide (c = ";"%char) then EmptyString
      else String c (before_semicolon rest)
  end.

(** [s.match(/pat/)] for a pattern without special characters: [pat] occurs
    in [s]. *)
Fixpoint occurs (pat s : string) : bool :=
  String.prefix pat s ||
  match s with
  | EmptyString => false
  | String _ rest => occurs pat rest
  end.

(** What [platform.ajax] rejects with: a status code or something else. *)
Inductive failure :=
  | Status (code : nat)
  | Message (text : string).

Section response.
Context {json : Type}.
(** [JSON.parse] ([None]: it throws) and [util.rawToBuffer]. *)
Variable JSON_parse : string → option json.
Variable rawToBuffer : string → list Byte.byte.

Inductive payload :=
  | NoData
  | Text (s : string)
  | Binary (bytes : list Byte.byte)
  | Json (j : json).

(** How the promise of [doCall] is settled. *)
Inductive settlement :=
  | Fulfill (data : payload) (mimeType : option string)
  | Fail (error : failure).

(** The first function given to [then]: the response arrived. *)
Definition on_response (data : string) (headers : gmap string string)
    : settlement :=
  let contentType :=
    match headers !! "content-type" with
    | Some h => if bool_decide (h = "") then defaultContentType else h
    | None => defaultContentType
    end in
  let mimeType := before_semicolon contentType in
  let data :=
    if occurs "charset=binary" contentType then Binary (rawToBuffer data)
    else if bool_decide (mimeType = "application/json")
         then match JSON_parse data with
              | Some j => Json j
              | None => Text data
              end
         else Text data in
  Fulfill data (Some mimeType).

(** The second function given to [then]: the request failed. *)
Definition on_error (error : failure) : settlement :=
  match error with
  | Status 404 => Fulfill NoData None
  | Status 401 => Fail (Message "unauthorized")
  | _ => Fail error
  end.

End response.

End GetPutDelete.

Example match_parts_abc : Path.match_parts "a/b/c" = Some ("a/b/", "c").
Proof. reflexivity. Qed.
Example match_parts_dir : Path.match_parts "a/b/" = Some ("a/", "b/").
Proof. reflexivity. Qed.
Example match_parts_top : Path.match_parts "a/" = None.
Proof. reflexivity. Qed.
Example match_parts_abs : Path.match_parts "/a" = Some ("/", "a").
Proof. reflexivity. Qed.
Example match_parts_root : Path.match_parts "/" = None.
Proof. reflexivity. Qed.
Example match_parts_dslash : Path.match_parts "a//" = None.
Proof. reflexivity. Qed.

(** ** Facts about paths *)

Section path_facts.

Lemma append_cons c d b : String c d +:+ b = String c (d +:+ b).
Proof. reflexivity. Qed.

Lemma append_length a b :
  String.length (a +:+ b) = String.length a + String.length b.
Proof. induction a as [|c a IH]; [done|]. rewrite append_cons. simpl. lia. Qed.

Lemma is_basename_nonempty b : Path.is_basename b = true → 0 < String.length b.
Proof. destruct b; simpl; [done|lia]. Qed.

Lemma match_parts_append s d b :
  Path.match_parts s = Some (d, b) → s = d +:+ b.
Proof.
  revert d b. induction s as [|c s IH]; intros d b; simpl; [done|].
  destruct (Path.match_parts s) as [[d' b']|].
  - destruct (Path.dot c); [|done]. intros [= <- <-].
    rewrite append_cons. f_equal. by apply IH.
  - case_bool_decide as Hc; simpl; [|done].
    destruct (Path.is_basename s); [|done]. intros [= <- <-]. by subst c.
Qed.

Lemma match_parts_basename s d b :
  Path.match_parts s = Some (d, b) → Path.is_basename b = true.
Proof.
  revert d b. induction s as [|c s IH]; intros d b; simpl; [done|].
  destruct (Path.match_parts s) as [[d' b']|].
  - destruct (Path.dot c); [|done]. intros [= <- <-]. eauto.
  - case_bool_decide; simpl; [|done].
    destruct (Path.is_basename s) eqn:Hb; [|done]. by intros [= <- <-].
Qed.

Lemma match_parts_is_dir s d b :
  Path.match_parts s = Some (d, b) → Path.is_dir d = true.
Proof.
  revert d b. induction s as [|c s IH]; intros d b; simpl; [done|].
  destruct (Path.match_parts s) as [[d' b']|] eqn:Hs.
  - destruct (Path.dot c); [|done]. intros [= <- <-].
    specialize (IH _ _ eq_refl). unfold Path.is_dir in *. simpl.
    destruct d'; [done|]. done.
  - case_bool_decide; simpl; [|done].
    destruct (Path.is_basename s); [|done]. by intros [= <- <-].
Qed.

Lemma match_parts_length s d b :
  Path.match_parts s = Some (d, b) → String.length d < String.length s.
Proof.
  intros H. pose proof (match_parts_basename _ _ _ H) as Hb.
  apply is_basename_nonempty in Hb.
  rewrite (match_parts_append _ _ _ H), append_length. lia.
Qed.

(** [is_basename] is the language of [[^\/]+\/?]. *)
Lemma is_basename_spec s :
  Path.is_basename s = true ↔
  ∃ n t, s = n +:+ t ∧ n ≠ "" ∧ Path.no_slash n = true ∧ (t = "" ∨ t = "/").
Proof.
  split.
  - induction s as [|c s IH]; simpl; [done|].
    intros [Hc Hs]%andb_true_iff.
    apply orb_true_iff in Hs as [Hs|Hs];
      [apply orb_true_iff in Hs as [Hs|Hs]; apply bool_decide_eq_true in Hs|].
    + subst s. exists (String c ""), "". simpl. by rewrite Hc; eauto.
    + subst s. exists (String c ""), "/". simpl. by rewrite Hc; eauto.
    + destruct (IH Hs) as (n & t & -> & _ & Hn & Ht).
      exists (String c n), t. simpl. by rewrite Hc, Hn.
  - intros (n & t & -> & Hne & Hn & Ht). induction n as [|c n IH]; [done|].
    simpl in Hn. apply andb_true_iff in Hn as [Hc Hn].
    rewrite append_cons. simpl. rewrite Hc. simpl.
    destruct n as [|c' n].
    + destruct Ht as [-> | ->]; done.
    + rewrite IH by done. by rewrite orb_true_r.
Qed.

(** A basename has no slash followed by a basename. *)
Lemma is_basename_no_parts b :
  Path.is_basename b = true → Path.match_parts b = None.
Proof.
  induction b as [|c b IH]; simpl; [done|].
  intros [Hc Hs]%andb_true_iff. apply negb_true_iff in Hc.
  assert (Path.match_parts b = None) as ->.
  { apply orb_true_iff in Hs as [Hs|Hs]; [|by apply IH].
    apply orb_true_iff in Hs as [Hs|Hs]; apply bool_decide_eq_true in Hs;
      by subst b. }
  by rewrite Hc.
Qed.

Lemma match_parts_all_dot s d b :
  Path.match_parts s = Some (d, b) → Path.all_dot d = true.
Proof.
  revert d b. induction s as [|c s IH]; intros d b; simpl; [done|].
  destruct (Path.match_parts s) as [[d' b']|].
  - destruct (Path.dot c) eqn:Hc; [|done]. intros [= <- <-]. simpl.
    rewrite Hc. eauto.
  - case_bool_decide; simpl; [|done].
    destruct (Path.is_basename s); [|done]. by intros [= <- <-].
Qed.

(** [match_parts] is the match of [/^(.*\/)([^\/]+\/?)$/]: the path splits
    into a first part that [.*\/] matches and a second that [[^\/]+\/?]
    matches. *)
Lemma match_parts_spec s d b :
  Path.match_parts s = Some (d, b) ↔
  s = d +:+ b ∧ Path.is_dir d = true ∧ Path.all_dot d = true ∧
  Path.is_basename b = true.
Proof.
  split.
  { intros H. split; [by apply match_parts_append|].
    split; [by eapply match_parts_is_dir|].
    split; [by eapply match_parts_all_dot|by eapply match_parts_basename]. }
  intros (-> & Hd & Hdot & Hb). induction d as [|c d IH]; [done|].
  rewrite append_cons. simpl in *. apply andb_true_iff in Hdot as [Hc Hdot].
  destruct d as [|c' d].
  - change ("" +:+ b) with b. rewrite (is_basename_no_parts _ Hb), Hb.
    unfold Path.is_dir in Hd. simpl in Hd.
    case_bool_decide; [by subst c|done].
  - rewrite IH by done. by rewrite Hc.
Qed.

(** A directory-shaped path is one that ends in a slash. *)
Lemma is_dir_append d : Path.is_dir (d +:+ "/") = true.
Proof.
  unfold Path.is_dir. induction d as [|c d IH]; [done|].
  rewrite append_cons. simpl. destruct (d +:+ "/") eqn:E; [|done].
  by destruct d.
Qed.

Lemma is_dir_inv s : Path.is_dir s = true → ∃ d, s = d +:+ "/".
Proof.
  unfold Path.is_dir. induction s as [|c s IH]; simpl; [done|].
  destruct s as [|c' s].
  - case_bool_decide; [|done]. subst c. by exists "".
  - intros H. destruct (IH H) as [d ->]. exists (String c d).
    by rewrite append_cons.
Qed.

(** [substr(0, n) == path] is the prefix test. *)
Lemma starts_with_spec p k :
  Path.starts_with p k = true ↔ ∃ rest, k = p +:+ rest.
Proof.
  unfold Path.starts_with. rewrite bool_decide_eq_true.
  revert k. induction p as [|c p IH]; intros k; simpl.
  - split; [intros _; by exists k|]. intros _. by destruct k.
  - destruct k as [|c' k]; simpl.
    + split; [done|]. by intros [rest ?].
    + split.
      * intros [= -> H]. apply IH in H as [rest ->]. by exists rest.
      * intros [rest H]. rewrite append_cons in H. injection H as -> ->.
        f_equal. apply IH. by exists rest.
Qed.

End path_facts.

(** ** The directory walks terminate within their fuel *)

Section walks.
Import IndexedDB.

Lemma addToParent_fuel_irrel key f1 : ∀ f2 nodes path,
  String.length path <= f1 → String.length path <= f2 →
  addToParent_fuel f1 nodes path key = addToParent_fuel f2 nodes path key.
Proof.
  induction f1 as [|f1 IH]; intros [|f2] nodes path H1 H2; simpl; try done.
  - destruct path; [done|simpl in *; lia].
  - destruct path; [done|simpl in *; lia].
  - destruct (Path.match_parts path) as [[d b]|] eqn:Hm; [|done].
    apply match_parts_length in Hm.
    destruct (mark_child key b _) as [n'|]; simpl; [|done].
    case_bool_decide; [|done]. apply IH; lia.
Qed.

Lemma removeFromParent_fuel_irrel key f1 : ∀ f2 nodes path,
  String.length path <= f1 → String.length path <= f2 →
  removeFromParent_fuel f1 nodes path key =
  removeFromParent_fuel f2 nodes path key.
Proof.
  induction f1 as [|f1 IH]; intros [|f2] nodes path H1 H2; simpl; try done.
  - destruct path; [done|simpl in *; lia].
  - destruct path; [done|simpl in *; lia].
  - destruct (Path.match_parts path) as [[d b]|] eqn:Hm; [|done].
    apply match_parts_length in Hm.
    destruct (nodes !! d) as [n|]; [|done].
    destruct (unmark_child key b n) as [n'|]; simpl; [|done].
    destruct (keepDirNode n') as [[]|]; simpl; try done.
    case_bool_decide; [|done]. apply IH; lia.
Qed.

(** The walks as the source writes them: one step, then the same walk from
    [dirname]. *)
Lemma addToParent_eq nodes path key :
  addToParent nodes path key =
  match Path.match_parts path with
  | None => Some nodes
  | Some (dirname, basename) =>
      n' ← mark_child key basename (default (makeNode dirname) (nodes !! dirname));
      if bool_decide (dirname ≠ "/")
      then addToParent (<[dirname := n']> nodes) dirname key
      else Some (<[dirname := n']> nodes)
  end.
Proof.
  unfold addToParent. destruct (String.length path) as [|f] eqn:Hlen.
  { destruct path; [done|discriminate]. }
  simpl. destruct (Path.match_parts path) as [[d b]|] eqn:Hm; [|done].
  apply match_parts_length in Hm.
  destruct (mark_child key b _) as [n'|]; simpl; [|done].
  case_bool_decide; [|done]. apply addToParent_fuel_irrel; lia.
Qed.

Lemma removeFromParent_eq nodes path key :
  removeFromParent nodes path key =
  match Path.match_parts path with
  | None => Some nodes
  | Some (dirname, basename) =>
      match nodes !! dirname with
      | None => None
      | Some n =>
          n' ← unmark_child key basename n;
          keep ← keepDirNode n';
          if keep : bool then Some (<[dirname := n']> nodes)
          else if bool_decide (dirname ≠ "/")
               then removeFromParent (base.delete dirname nodes) dirname key
               else Some (base.delete dirname nodes)
      end
  end.
Proof.
  unfold removeFromParent. destruct (String.length path) as [|f] eqn:Hlen.
  { destruct path; [done|discriminate]. }
  simpl. destruct (Path.match_parts path) as [[d b]|] eqn:Hm; [|done].
  apply match_parts_length in Hm.
  destruct (nodes !! d) as [n|]; [|done].
  destruct (unmark_child key b n) as [n'|]; simpl; [|done].
  destruct (keepDirNode n') as [[]|]; simpl; try done.
  case_bool_decide; [|done]. apply removeFromParent_fuel_irrel; lia.
Qed.

(** Induction along a walk: on the length of the path. *)
Lemma path_length_ind (P : string → Prop) :
  (∀ path, (∀ d, String.length d < String.length path → P d) → P path) →
  ∀ path, P path.
Proof.
  intros Hstep path.
  remember (String.length path) as n eqn:Hn.
  revert path Hn. induction n as [n IH] using lt_wf_ind.
  intros path ->. apply Hstep. intros d Hd. by eapply IH.
Qed.

(** A walk from [path] writes only keys shorter than [path]. *)
Lemma addToParent_frame key path : ∀ nodes nodes' k,
  addToParent nodes path key = Some nodes' →
  String.length path <= String.length k → nodes' !! k = nodes !! k.
Proof.
  induction path as [path IH] using path_length_ind.
  intros nodes nodes' k. rewrite addToParent_eq.
  destruct (Path.match_parts path) as [[d b]|] eqn:Hm; [|by intros [= ->]].
  apply match_parts_length in Hm.
  destruct (mark_child key b _) as [n'|]; simpl; [|done].
  assert (∀ k, String.length path <= String.length k →
               <[d:=n']> nodes !! k = nodes !! k) as Hk.
  { intros k' ?. apply lookup_insert_ne. intros ->. lia. }
  case_bool_decide.
  - intros Hw ?. rewrite (IH d Hm _ _ k Hw) by lia. by apply Hk.
  - intros [= <-] ?. by apply Hk.
Qed.

Lemma removeFromParent_frame key path : ∀ nodes nodes' k,
  removeFromParent nodes path key = Some nodes' →
  String.length path <= String.length k → nodes' !! k = nodes !! k.
Proof.
  induction path as [path IH] using path_length_ind.
  intros nodes nodes' k. rewrite removeFromParent_eq.
  destruct (Path.match_parts path) as [[d b]|] eqn:Hm; [|by intros [= ->]].
  apply match_parts_length in Hm.
  destruct (nodes !! d) as [n|]; [|done].
  destruct (unmark_child key b n) as [n'|]; simpl; [|done].
  destruct (keepDirNode n') as [[]|]; simpl; try done.
  - intros [= <-] ?. apply lookup_insert_ne. intros ->. lia.
  - assert (String.length path <= String.length k →
            base.delete d nodes !! k = nodes !! k) as Hk.
    { intros ?. apply lookup_delete_ne. intros ->. lia. }
    case_bool_decide.
    + intros Hw ?. rewrite (IH d Hm _ _ k Hw) by lia. by apply Hk.
    + intros [= <-] ?. by apply Hk.
Qed.

End walks.

(** ** Change log: [_recordChange] *)

Section change_log.
Import IndexedDB.

(** Attributes that do not name [path] are recorded under [path]. *)
Lemma recordChange_plain st path attributes :
  attributes !! "path" = None →
  _recordChange st path attributes =
    Outcome (Fulfilled None)
      (DB (nodes st) (<[path := merged_change st path attributes]> (changes st)))
      [Transaction "changes" "readwrite"].
Proof.
  intros Hp. unfold _recordChange, put_change, merged_change.
  by rewrite lookup_union_r, lookup_insert_eq.
Qed.

Lemma completed_local st path action events :
  completed st path false action events =
    Outcome (Fulfilled (Some 200))
      (DB (nodes st)
          (<[path := merged_change st path {["action" := CStr action]}]>
             (changes st)))
      (Transaction "nodes" "readwrite" :: events ++
       [Transaction "changes" "readwrite"]).
Proof. unfold completed. by rewrite recordChange_plain. Qed.

End change_log.

(** ** Node store: [put] and [delete] *)

Section node_store.
Import IndexedDB.

Lemma emitted_completed st path incoming action events :
  emitted (completed st path incoming action events) =
  omap (λ e, match e with Emit (Change c) => Some c | _ => None end) events.
Proof.
  destruct incoming; [done|]. rewrite completed_local. unfold emitted. simpl.
  by rewrite omap_app, app_nil_r.
Qed.

Lemma result_completed st path incoming action events :
  result (completed st path incoming action events) = Fulfilled (Some 200).
Proof. by destruct incoming. Qed.

Lemma nodes_completed st path incoming action events :
  nodes (store (completed st path incoming action events)) = nodes st.
Proof. destruct incoming; [done|]. by rewrite completed_local. Qed.

Lemma put_committed_inv st path body ct incoming :
  result (put st path body ct incoming) = Fulfilled (Some 200) →
  Path.is_dir path = false ∧
  ∃ nodes', addToParent (<[path := Node (Some body) None (Some ct) None]> (nodes st))
                        path Body = Some nodes' ∧
            nodes (store (put st path body ct incoming)) = nodes' ∧
            emitted (put st path body ct incoming) =
              [ChangeEvent path (origin_of incoming)
                 (nodes st !! path ≫= IndexedDB.body) (Some body)].
Proof.
  unfold put. destruct (Path.is_dir path); [done|].
  destruct (addToParent _ path Body) as [nodes'|]; [|done].
  intros _. split; [done|]. exists nodes'. split; [done|].
  by rewrite nodes_completed, emitted_completed.
Qed.

Lemma delete_committed_inv st path incoming :
  result (delete st path incoming) = Fulfilled (Some 200) →
  Path.is_dir path = false ∧
  ∃ nodes', removeFromParent (base.delete path (nodes st)) path Body = Some nodes' ∧
            nodes (store (delete st path incoming)) = nodes' ∧
            emitted (delete st path incoming) =
              match nodes st !! path with
              | Some old => [ChangeEvent path (origin_of incoming)
                               (IndexedDB.body old) None]
              | None => []
              end.
Proof.
  unfold delete. destruct (Path.is_dir path); [done|].
  destruct (removeFromParent _ path Body) as [nodes'|]; [|done].
  intros _. split; [done|]. exists nodes'. split; [done|].
  rewrite nodes_completed, emitted_completed. by destruct (nodes st !! path).
Qed.

End node_store.

(** ** Properties of [put] and [delete] *)

Section node_store_properties.
Import IndexedDB.

(** C5: for every path ending in a slash, [put] and [delete] throw at once:
    the stores (nodes and changes) are the ones passed in, and the trace is
    empty, so no transaction was opened and nothing was emitted. *)
Theorem put_delete_reject_directory_paths (st : db) (d : string)
    (body : jsval) (ct : string) (incoming : bool) :
  put st (d +:+ "/") body ct incoming =
    Outcome (Threw "Bad: don't PUT folders") st [] ∧
  delete st (d +:+ "/") incoming =
    Outcome (Threw "Bad: don't DELETE folders") st [].
Proof. unfold put, delete. by rewrite is_dir_append. Qed.

(** C1, as stated, fails: a [put] over a node that has a revision commits and
    leaves the node without revision. *)
Lemma put_keeps_revision_counterexample :
  let o := put revised_store "x" (JStr "new") "text/plain" false in
  getRevision revised_store "x" = Some "r1" ∧
  result o = Fulfilled (Some 200) ∧
  getRevision (store o) "x" = None.
Proof. vm_compute. done. Qed.

(** C1, amended: a [put] that commits stores a fresh node made of the given
    body and content type only; whatever revision the path had before, the
    stored node has none afterwards. *)
Theorem put_replaces_whole_node (st : db) (path : string) (body : jsval)
    (ct : string) (incoming : bool) :
  result (put st path body ct incoming) = Fulfilled (Some 200) →
  get (store (put st path body ct incoming)) path =
    Some (Node (Some body) None (Some ct) None) ∧
  getRevision (store (put st path body ct incoming)) path = None.
Proof.
  intros Hok. destruct (put_committed_inv _ _ _ _ _ Hok) as (_ & ns & Hw & Hn & _).
  unfold getRevision, get. rewrite Hn.
  rewrite (addToParent_frame _ _ _ _ path Hw) by lia.
  by rewrite lookup_insert_eq.
Qed.

Lemma put_replaces_whole_node_witness :
  get (store (put revised_store "x" (JStr "new") "text/plain" false)) "x" =
    Some (Node (Some (JStr "new")) None (Some "text/plain") None) ∧
  getRevision (store (put revised_store "x" (JStr "new") "text/plain" false)) "x"
    = None.
Proof. apply put_replaces_whole_node. vm_compute. reflexivity. Defined.

(** C4, as stated, fails: the event of a local [put] has origin ["window"],
    which is not ["local"]. *)
Lemma local_origin_counterexample :
  let o := put (DB ∅ ∅) "x" (JStr "v") "text/plain" false in
  result o = Fulfilled (Some 200) ∧
  emitted o = [ChangeEvent "x" "window" None (Some (JStr "v"))] ∧
  ∃ e, e ∈ emitted o ∧ origin e ≠ "local".
Proof.
  vm_compute. split; [done|]. split; [done|].
  eexists. split; [apply list_elem_of_here|]. done.
Qed.

(** C4, amended: with [incoming] true neither [put] nor [delete] touches the
    change log, and every change event they emit has origin ["remote"]; with
    [incoming] false a [put] or [delete] that commits leaves a change for the
    path with action PUT or DELETE, and every change event they emit has
    origin ["window"].  A committed [put] emits exactly one event. *)
Theorem incoming_flag_origin_and_change_log (st : db) (path : string)
    (body : jsval) (ct : string) :
  (changes (store (put st path body ct true)) = changes st ∧
   changes (store (delete st path true)) = changes st ∧
   (∀ e, e ∈ emitted (put st path body ct true) ∨
         e ∈ emitted (delete st path true) → origin e = "remote") ∧
   (result (put st path body ct true) = Fulfilled (Some 200) →
    length (emitted (put st path body ct true)) = 1)) ∧
  ((result (put st path body ct false) = Fulfilled (Some 200) →
    ∃ c, changes (store (put st path body ct false)) !! path = Some c ∧
         c !! "action" = Some (CStr "PUT")) ∧
   (result (delete st path false) = Fulfilled (Some 200) →
    ∃ c, changes (store (delete st path false)) !! path = Some c ∧
         c !! "action" = Some (CStr "DELETE")) ∧
   (∀ e, e ∈ emitted (put st path body ct false) ∨
         e ∈ emitted (delete st path false) → origin e = "window") ∧
   (result (put st path body ct false) = Fulfilled (Some 200) →
    length (emitted (put st path body ct false)) = 1)).
Proof.
  assert (∀ incoming e,
    e ∈ emitted (put st path body ct incoming) ∨
    e ∈ emitted (delete st path incoming) → origin e = origin_of incoming) as Hor.
  { intros incoming e. unfold put, delete.
    destruct (Path.is_dir path); [by intros [H|H]; inv H|].
    intros [H|H].
    - destruct (addToParent _ path Body); [|by inv H].
      rewrite emitted_completed in H. simpl in H.
      by apply list_elem_of_singleton in H as ->.
    - destruct (removeFromParent _ path Body); [|by inv H].
      rewrite emitted_completed in H.
      destruct (nodes st !! path); simpl in H; [|by inv H].
      by apply list_elem_of_singleton in H as ->. }
  assert (∀ incoming,
    result (put st path body ct incoming) = Fulfilled (Some 200) →
    length (emitted (put st path body ct incoming)) = 1) as Hone.
  { intros incoming Hok.
    destruct (put_committed_inv _ _ _ _ _ Hok) as (_ & ? & _ & _ & ->). done. }
  split; [split; [|split; [|split]]|split; [|split; [|split]]].
  - unfold put. destruct (Path.is_dir path); [done|].
    by destruct (addToParent _ path Body).
  - unfold delete. destruct (Path.is_dir path); [done|].
    by destruct (removeFromParent _ path Body).
  - apply (Hor true).
  - apply Hone.
  - unfold put. destruct (Path.is_dir path); [done|].
    destruct (addToParent _ path Body); [|done]. intros _.
    rewrite completed_local. simpl. rewrite lookup_insert_eq.
    eexists; split; [done|]. unfold merged_change.
    by rewrite lookup_union_l', lookup_singleton_eq.
  - unfold delete. destruct (Path.is_dir path); [done|].
    destruct (removeFromParent _ path Body); [|done]. intros _.
    rewrite completed_local. simpl. rewrite lookup_insert_eq.
    eexists; split; [done|]. unfold merged_change.
    by rewrite lookup_union_l', lookup_singleton_eq.
  - apply (Hor false).
  - apply Hone.
Qed.

Lemma incoming_flag_origin_and_change_log_witness :
  ∃ c, changes (store (put (DB ∅ ∅) "x" (JStr "v") "text/plain" false)) !! "x"
       = Some c ∧ c !! "action" = Some (CStr "PUT").
Proof.
  apply (proj1 (proj2 (incoming_flag_origin_and_change_log
                         (DB ∅ ∅) "x" (JStr "v") "text/plain"))).
  reflexivity.
Defined.

End node_store_properties.

(** ** Deleting a path that holds no node *)

Section delete_absent.
Import IndexedDB.

(** C10 at the failing input: in an empty store, [delete("a/x")] finds no
    node at ["a/x"], and the walk then reads the missing directory ["a/"]:
    the handler raises, the transaction aborts, the promise is rejected and
    no change is recorded. *)
Lemma delete_absent_nested_aborts :
  let o := delete (DB ∅ ∅) "a/x" false in
  get (DB ∅ ∅) "a/x" = None ∧
  result o = Rejected ∧
  changes (store o) !! "a/x" = None ∧
  emitted o = [].
Proof. vm_compute. done. Qed.

(** Where the walk goes through (a path without parent directory, or one
    whose directories are stored), deleting an absent path emits nothing,
    records the DELETE and fulfills with 200. *)
Lemma delete_absent_committed st path nodes' :
  Path.is_dir path = false →
  nodes st !! path = None →
  removeFromParent (base.delete path (nodes st)) path Body = Some nodes' →
  let o := delete st path false in
  result o = Fulfilled (Some 200) ∧
  emitted o = [] ∧
  ∃ c, changes (store o) !! path = Some c ∧ c !! "action" = Some (CStr "DELETE").
Proof.
  intros Hd Hn Hw. unfold delete. rewrite Hd, Hw, Hn, completed_local. simpl.
  split; [done|]. split; [done|]. rewrite lookup_insert_eq.
  eexists; split; [done|]. unfold merged_change.
  by rewrite lookup_union_l', lookup_singleton_eq.
Qed.

Lemma delete_absent_top_level :
  let o := delete (DB ∅ ∅) "x" false in
  result o = Fulfilled (Some 200) ∧ emitted o = [] ∧
  changes (store o) !! "x" =
    Some {["path" := CStr "x"; "action" := CStr "DELETE"]}.
Proof. vm_compute. done. Qed.

End delete_absent.

(** ** Properties of the change log *)

Section change_log_properties.
Import IndexedDB.




End change_log_properties.

(** ** Properties of conflicts *)

Section conflict_properties.
Import IndexedDB.

Lemma recordChange_conflict st path attributes :
  _recordChange st path {["conflict" := CObj attributes]} =
    Outcome (Fulfilled None)
      (DB (nodes st)
          (<[path := merged_change st path {["conflict" := CObj attributes]}]>
             (changes st)))
      [Transaction "changes" "readwrite"].
Proof. by apply recordChange_plain. Qed.

Lemma stored_conflict_recorded st path attributes :
  stored_conflict (store (_recordChange st path {["conflict" := CObj attributes]}))
                  path = Some attributes.
Proof.
  rewrite recordChange_conflict. unfold stored_conflict, merged_change. simpl.
  rewrite lookup_insert_eq. simpl.
  by rewrite lookup_union_l', lookup_singleton_eq.
Qed.

(** [setConflict] records the attributes and then emits one conflict event,
    made of the path and the attributes. *)
Lemma setConflict_records st path attributes :
  stored_conflict (store (setConflict st path attributes)) path = Some attributes ∧
  trace (setConflict st path attributes) =
    [Transaction "changes" "readwrite";
     Emit (Conflict (attributes ∪ {["path" := path]}))].
Proof.
  unfold setConflict. rewrite recordChange_conflict. simpl. split; [|done].
  rewrite <-(stored_conflict_recorded st path attributes).
  by rewrite recordChange_conflict.
Qed.

(** C9, as stated, fails: when the conflict already has a resolution (given
    with the attributes, or set by an earlier [resolve]), a rejected
    [resolve] leaves that resolution stored, not an unset field. *)
Lemma resolve_leaves_unset_counterexample :
  let attrs : gmap string string :=
    {["localAction" := "PUT"; "remoteAction" := "DELETE"]} in
  let given : gmap string string := <["resolution" := "remote"]> attrs in
  let bad := resolve (store (setConflict (DB ∅ ∅) "p" given)) "p" given "bogus" in
  let first := resolve (store (setConflict (DB ∅ ∅) "p" attrs)) "p" attrs "local" in
  let second := resolve (store first.1) "p" first.2 "bogus" in
  (result bad.1 = Threw "Invalid resolution: bogus" ∧
   stored_resolution (store bad.1) "p" = Some "remote") ∧
  (result second.1 = Threw "Invalid resolution: bogus" ∧
   stored_resolution (store second.1) "p" = Some "local").
Proof. vm_compute. done. Qed.

(** C9, amended: after [setConflict(p, attrs)], [resolve] with ["local"] or
    ["remote"] records the attributes with [resolution] set to that value;
    with any other value it throws at once and writes nothing, so the stored
    conflict is still the one [setConflict] recorded: its [resolution] is the
    one [attrs] carried, unset when [attrs] carried none. *)
Theorem resolve_sets_or_rejects (st : db) (p : string)
    (attrs : gmap string string) (r : string) :
  let st1 := store (setConflict st p attrs) in
  let o := (resolve st1 p attrs r).1 in
  (r = "local" ∨ r = "remote" →
   result o = Returned ∧
   transactions o = [("changes", "readwrite")] ∧
   stored_conflict (store o) p = Some (<["resolution" := r]> attrs) ∧
   stored_resolution (store o) p = Some r) ∧
  (r ≠ "local" → r ≠ "remote" →
   result o = Threw ("Invalid resolution: " +:+ r) ∧
   store o = st1 ∧ trace o = [] ∧
   stored_conflict (store o) p = Some attrs ∧
   stored_resolution (store o) p = attrs !! "resolution" ∧
   (attrs !! "resolution" = None → stored_resolution (store o) p = None)).
Proof.
  simpl. split.
  - intros Hr. unfold resolve.
    assert (bool_decide (r = "remote") || bool_decide (r = "local") = true) as ->.
    { destruct Hr as [-> | ->]; done. }
    simpl. split; [done|]. split.
    { by rewrite recordChange_conflict. }
    unfold stored_resolution. rewrite stored_conflict_recorded. simpl.
    by rewrite lookup_insert_eq.
  - intros Hl Hrm. unfold resolve.
    rewrite !bool_decide_eq_false_2 by done. simpl.
    destruct (setConflict_records st p attrs) as [Hc _].
    unfold stored_resolution. rewrite Hc. simpl. done.
Qed.

Lemma resolve_sets_or_rejects_witness :
  let attrs : gmap string string :=
    {["localAction" := "PUT"; "remoteAction" := "DELETE"]} in
  let o := (resolve (store (setConflict (DB ∅ ∅) "p" attrs)) "p" attrs "bogus").1 in
  result o = Threw "Invalid resolution: bogus" ∧
  store o = store (setConflict (DB ∅ ∅) "p" attrs) ∧ trace o = [] ∧
  stored_conflict (store o) "p" = Some attrs ∧
  stored_resolution (store o) "p" = attrs !! "resolution" ∧
  (attrs !! "resolution" = None → stored_resolution (store o) "p" = None).
Proof.
  apply (proj2 (resolve_sets_or_rejects (DB ∅ ∅) "p"
                  {["localAction" := "PUT"; "remoteAction" := "DELETE"]}
                  "bogus")); discriminate.
Defined.

(** The scenario of the specification: a fresh conflict, a rejected
    resolution, then an accepted one. *)
Lemma resolve_bogus_then_local :
  let attrs : gmap string string :=
    {["localAction" := "PUT"; "remoteAction" := "DELETE"]} in
  let st1 := store (setConflict (DB ∅ ∅) "p" attrs) in
  let bad := resolve st1 "p" attrs "bogus" in
  let good := resolve (store bad.1) "p" bad.2 "local" in
  result bad.1 = Threw "Invalid resolution: bogus" ∧
  stored_resolution (store bad.1) "p" = None ∧
  stored_resolution (store good.1) "p" = Some "local".
Proof. vm_compute. done. Qed.

End conflict_properties.

(** ** Properties of the transport *)

Section transport_properties.
Import GetPutDelete.

(** C3, as stated, fails: [undefined] is neither a string nor an
    [ArrayBuffer], and [set] then sends a DELETE request and reports no
    error. *)
Lemma set_undefined_counterexample :
  let r := set "https://storage.example/x" Undefined (Some "text/plain") (Some "t") in
  bool_decide (typeof Undefined = "string") = false ∧
  instanceof_ArrayBuffer Undefined = false ∧
  filter is_callback r = [] ∧
  filter is_ajax r = r ∧
  r = [Ajax (Request "https://storage.example/x" "DELETE" Function
               {["Authorization" := "Bearer t"]} (Some Null))].
Proof. vm_compute. done. Qed.

(** What the source does with a value it reports as invalid: the callback
    gets the error, and the PUT request is sent all the same. *)
Lemma put_invalid_value_goes_on :
  put "https://storage.example/x" (Number 5) None None =
    [Callback "invalid value given to PUT, only strings allowed, got number";
     Ajax (Request "https://storage.example/x" "PUT" Function ∅
             (Some (Number 5)))].
Proof. vm_compute. done. Qed.

(** C3, amended: for a value that is not [undefined], not a string and not
    an [ArrayBuffer], the first thing [set] does is to call back with the
    error "invalid value given to PUT, only strings allowed, got <type>";
    for [undefined] it sends one DELETE request and calls back with no
    error. *)
Theorem set_rejects_invalid_value (url : string) (v : value)
    (mimeType token : option string) :
  (typeof v ≠ "undefined" → typeof v ≠ "string" →
   instanceof_ArrayBuffer v = false →
   ∃ rest, set url v mimeType token =
           Callback ("invalid value given to PUT, only strings allowed, got "
                     +:+ typeof v) :: rest) ∧
  (∃ r, set url Undefined mimeType token = [Ajax r] ∧ method r = "DELETE").
Proof.
  split.
  - intros Hu Hs Hb. unfold set, put.
    rewrite (bool_decide_eq_false_2 _ Hu), (bool_decide_eq_false_2 _ Hs), Hb.
    rewrite andb_false_r. simpl. eauto.
  - unfold set. simpl. unfold doCall. eauto.
Qed.

Lemma set_rejects_invalid_value_witness :
  ∃ rest, set "https://storage.example/x" (Number 5) (Some "text/plain") None =
          Callback "invalid value given to PUT, only strings allowed, got number"
          :: rest.
Proof.
  apply (proj1 (set_rejects_invalid_value "https://storage.example/x" (Number 5)
                  (Some "text/plain") None)); [discriminate..|reflexivity].
Defined.

End transport_properties.

(** ** The key order and the prefix scan of [changesBelow] *)

Section key_order.
Import IndexedDB.

Lemma le_nil_l s : ("" ≤ s)%string.
Proof. by destruct s. Qed.

Lemma le_nil_r c s : ¬ (String c s ≤ "")%string.
Proof. by intros []. Qed.

Lemma ascii_compare_refl a : Ascii.compare a a = Eq.
Proof. apply N.compare_refl. Qed.

Lemma le_cons a s b t :
  (String a s ≤ String b t)%string ↔
  Ascii.compare a b = Lt ∨ (a = b ∧ (s ≤ t)%string).
Proof.
  unfold String.le, String.leb. simpl.
  destruct (Ascii.compare a b) eqn:E.
  - apply Ascii.compare_eq_iff in E as ->.
    split; [by right|]. by intros [?|[_ ?]].
  - split; [by left|done].
  - split; [by intros []|]. intros [?| [-> _]]; [done|].
    by rewrite ascii_compare_refl in E.
Qed.

Lemma starts_with_nil k : Path.starts_with "" k = true.
Proof. apply starts_with_spec. by exists k. Qed.

Lemma starts_with_cons c p c' k :
  Path.starts_with (String c p) (String c' k) = true ↔
  c = c' ∧ Path.starts_with p k = true.
Proof.
  rewrite !starts_with_spec. split.
  - intros [rest H]. rewrite append_cons in H. injection H as -> ->. eauto.
  - intros [-> [rest ->]]. by exists rest.
Qed.

(** A key that starts with [p] is not below [p]. *)
Lemma starts_with_le p : ∀ k, Path.starts_with p k = true → (p ≤ k)%string.
Proof.
  induction p as [|c p IH]; intros k; [intros; apply le_nil_l|].
  destruct k as [|c' k].
  { rewrite starts_with_spec. by intros [? ?]. }
  rewrite starts_with_cons, le_cons. intros [-> ?]. right. eauto.
Qed.

(** Past the first key at or above [p] that does not start with [p], no key
    starts with [p]: the keys that do are contiguous in key order. *)
Lemma past_prefix p : ∀ k k',
  (p ≤ k)%string → Path.starts_with p k = false → (k ≤ k')%string →
  Path.starts_with p k' = false.
Proof.
  induction p as [|c p IH]; intros k k' Hpk Hk Hkk'.
  { by rewrite starts_with_nil in Hk. }
  destruct k as [|ck k]; [by apply le_nil_r in Hpk|].
  destruct k' as [|ck' k']; [by apply le_nil_r in Hkk'|].
  apply not_true_is_false. rewrite starts_with_cons. intros [<- Hk'].
  apply le_cons in Hpk, Hkk'.
  assert (Path.starts_with (String c p) (String ck k) ≠ true) as Hk0 by congruence.
  rewrite starts_with_cons in Hk0.
  destruct Hpk as [Hlt | [<- Hpk]].
  - destruct Hkk' as [Hlt' | [-> _]].
    + rewrite Ascii.compare_antisym, Hlt' in Hlt. done.
    + by rewrite ascii_compare_refl in Hlt.
  - destruct Hkk' as [Hlt' | [_ Hkk']].
    + by rewrite ascii_compare_refl in Hlt'.
    + assert (Path.starts_with p k = false) as Hpk0.
      { apply not_true_is_false. naive_solver. }
      by rewrite (IH _ _ Hpk Hpk0 Hkk') in Hk'.
Qed.

Global Instance key_le_trans : Transitive key_le.
Proof. intros a b c. unfold key_le. apply transitivity. Qed.

Global Instance key_le_total : Total key_le.
Proof. intros a b. unfold key_le. apply total, _. Qed.

Lemma filter_none {A} (P : A → Prop) `{!∀ x, Decision (P x)} (l : list A) :
  Forall (λ x, ¬ P x) l → filter P l = [].
Proof.
  induction 1 as [|x l Hx _ IH]; [done|]. by rewrite filter_cons_False.
Qed.

(** On records in key order, scanning from the lower bound until the first
    key that does not start with [p] finds every record whose key does. *)
Lemma scan_is_filter p (l : list (string * gmap string cval)) :
  StronglySorted key_le l →
  changesBelow_scan p (filter (λ kv, (p ≤ kv.1)%string) l) =
  filter (λ kv, Path.starts_with p kv.1 = true) l.
Proof.
  induction 1 as [|[k v] l Hl IH Hall]; [done|].
  rewrite !filter_cons. simpl.
  destruct (decide (p ≤ k)%string) as [Hpk|Hpk].
  - simpl. destruct (Path.starts_with p k) eqn:Hk.
    + rewrite decide_True by done. by rewrite IH.
    + rewrite decide_False by done. symmetry. apply filter_none.
      apply Forall_forall. intros [k' v'] Hin. simpl.
      rewrite Forall_forall in Hall. specialize (Hall _ Hin).
      by rewrite (past_prefix p k k' Hpk Hk Hall).
  - rewrite IH. rewrite decide_False; [done|].
    intros Hk. by apply Hpk, starts_with_le.
Qed.

Lemma StronglySorted_filter {A} (R : relation A) (P : A → Prop)
    `{!∀ x, Decision (P x)} (l : list A) :
  StronglySorted R l → StronglySorted R (filter P l).
Proof.
  induction 1 as [|x l Hl IH Hall]; [constructor|].
  rewrite filter_cons. destruct (decide (P x)); [|done].
  constructor; [done|]. rewrite Forall_forall in Hall. apply Forall_forall.
  intros y Hy. apply list_elem_of_filter in Hy as [_ Hy]. auto.
Qed.

(** The records of the store in cursor order. *)
Lemma cursor_order_elem (cs : gmap string (gmap string cval)) k c :
  (k, c) ∈ merge_sort key_le (map_to_list cs) ↔ cs !! k = Some c.
Proof. by rewrite merge_sort_Permutation, elem_of_map_to_list. Qed.

Lemma cursor_order_NoDup (cs : gmap string (gmap string cval)) :
  NoDup (merge_sort key_le (map_to_list cs)).*1.
Proof. rewrite merge_sort_Permutation. apply NoDup_fst_map_to_list. Qed.

Lemma strictly_sorted_keys (l : list (string * gmap string cval)) :
  StronglySorted key_le l → NoDup l.*1 →
  StronglySorted (λ a b, (a ≤ b)%string ∧ a ≠ b) l.*1.
Proof.
  induction 1 as [|[k v] l Hl IH Hall]; simpl; [constructor|].
  rewrite NoDup_cons. intros [Hk Hnd]. constructor; [by apply IH|].
  rewrite Forall_forall in Hall. apply Forall_forall. intros k' Hk'. split.
  - apply list_elem_of_fmap in Hk' as [[k2 v2] [-> Hin]]. apply (Hall _ Hin).
  - intros <-. done.
Qed.

End key_order.

Section changesBelow_properties.
Import IndexedDB.

(** C6: for every prefix [p] and every change store, [changesBelow(p)]
    returns the values of the records found by its scan, and the records
    found are exactly the stored ones whose key starts with [p]; their keys
    are pairwise distinct and strictly ascending in the key order.  On the
    example store, [changesBelow("a/")] is the records of ["a/x"] and
    ["a/y/z"]. *)
Theorem changesBelow_exact (st : db) (p : string) :
  let found := changesBelow_scan p (openCursor p (changes st)) in
  changesBelow st p = found.*2 ∧
  (∀ k c, (k, c) ∈ found ↔
          changes st !! k = Some c ∧ ∃ rest, k = p +:+ rest) ∧
  NoDup found.*1 ∧
  StronglySorted (λ a b, (a ≤ b)%string ∧ a ≠ b) found.*1 ∧
  changesBelow (DB ∅ example_changes) "a/" =
    [ {["path" := CStr "a/x"; "action" := CStr "PUT"]};
      {["path" := CStr "a/y/z"; "action" := CStr "DELETE"]} ].
Proof.
  simpl. split; [done|]. unfold openCursor.
  pose proof (StronglySorted_merge_sort key_le (map_to_list (changes st))) as Hs.
  rewrite (scan_is_filter p _ Hs).
  split; [|split; [|split]].
  - intros k c. rewrite list_elem_of_filter, cursor_order_elem. simpl.
    rewrite starts_with_spec. tauto.
  - eapply sublist_NoDup; [apply cursor_order_NoDup|].
    apply fmap_sublist, sublist_filter.
  - apply strictly_sorted_keys.
    + by apply StronglySorted_filter.
    + eapply sublist_NoDup; [apply cursor_order_NoDup|].
      apply fmap_sublist, sublist_filter.
  - vm_compute. done.
Qed.

End changesBelow_properties.

(** ** The directory index under [put] *)

Section directory_index.
Import IndexedDB.

Lemma ancestors_fuel_irrel f1 : ∀ f2 path,
  String.length path <= f1 → String.length path <= f2 →
  ancestors_fuel f1 path = ancestors_fuel f2 path.
Proof.
  induction f1 as [|f1 IH]; intros [|f2] path H1 H2; simpl; try done.
  - destruct path; [done|simpl in *; lia].
  - destruct path; [done|simpl in *; lia].
  - destruct (Path.match_parts path) as [[d b]|] eqn:Hm; [|done].
    apply match_parts_length in Hm. f_equal.
    case_bool_decide; [|done]. apply IH; lia.
Qed.

Lemma ancestors_eq path :
  ancestors path =
  match Path.match_parts path with
  | None => []
  | Some (dirname, basename) =>
      (dirname, basename) ::
      if bool_decide (dirname ≠ "/") then ancestors dirname else []
  end.
Proof.
  unfold ancestors. destruct (String.length path) as [|f] eqn:Hlen.
  { destruct path; [done|discriminate]. }
  simpl. destruct (Path.match_parts path) as [[d b]|] eqn:Hm; [|done].
  apply match_parts_length in Hm. f_equal.
  case_bool_decide; [|done]. apply ancestors_fuel_irrel; lia.
Qed.

Lemma makeNode_is_directory d : Path.is_dir d = true → is_directory (makeNode d).
Proof. intros Hd. unfold makeNode. rewrite Hd. by exists ∅, ∅. Qed.

(** Marking a child of a directory node: the node stays a directory and
    lists the child. *)
Lemma mark_child_directory key b n :
  is_directory n →
  ∃ n' m, mark_child key b n = Some n' ∧ is_directory n' ∧
          get_ns key n' = Some (JMap m) ∧ m !! b = Some true.
Proof.
  intros (mb & mc & Hb & Hc). unfold mark_child.
  destruct key; simpl; [rewrite Hb|rewrite Hc]; eexists _, _;
    (split; [done|]); simpl; (split; [by eexists _, _|]);
    (split; [done|]); apply lookup_insert_eq.
Qed.


Lemma directories_ok_insert nodes k n :
  directories_ok nodes → (Path.is_dir k = true → is_directory n) →
  directories_ok (<[k := n]> nodes).
Proof.
  intros Hok Hn k' n'. rewrite lookup_insert. case_decide.
  - subst k'. intros [= <-]. done.
  - apply Hok.
Qed.

Lemma directories_ok_delete nodes k :
  directories_ok nodes → directories_ok (base.delete k nodes).
Proof.
  intros Hok k' n'. rewrite lookup_delete. case_decide; [done|]. apply Hok.
Qed.

(** On a store of that shape the walk of [addToParent] goes through, keeps
    the shape, and leaves every directory on the way listing its child. *)
Lemma addToParent_directories key path : ∀ nodes,
  directories_ok nodes →
  ∃ nodes', addToParent nodes path key = Some nodes' ∧
            directories_ok nodes' ∧
            ∀ d b, (d, b) ∈ ancestors path →
                   ∃ n m, nodes' !! d = Some n ∧
                          get_ns key n = Some (JMap m) ∧ m !! b = Some true.
Proof.
  induction path as [path IH] using path_length_ind. intros nodes Hok.
  rewrite addToParent_eq, ancestors_eq.
  destruct (Path.match_parts path) as [[d b]|] eqn:Hm.
  2:{ exists nodes. split; [done|]. split; [done|]. intros ?? H. by inv H. }
  pose proof (match_parts_length _ _ _ Hm) as Hlen.
  pose proof (match_parts_is_dir _ _ _ Hm) as Hd.
  assert (is_directory (default (makeNode d) (nodes !! d))) as Hn.
  { destruct (nodes !! d) as [n|] eqn:Hnd; simpl; [by eapply Hok|].
    by apply makeNode_is_directory. }
  destruct (mark_child_directory key b _ Hn) as (n' & m & -> & Hn' & Hg & Hb).
  simpl.
  assert (directories_ok (<[d:=n']> nodes)) as Hok'.
  { by apply directories_ok_insert. }
  case_bool_decide as Hroot.
  - destruct (IH d Hlen _ Hok') as (nodes' & Hw & Hok'' & Hin).
    exists nodes'. split; [done|]. split; [done|].
    intros d' b' [[= -> ->]|H]%elem_of_cons; [|by apply Hin].
    exists n', m. split; [|done].
    rewrite (addToParent_frame _ _ _ _ d Hw) by lia. apply lookup_insert_eq.
  - exists (<[d:=n']> nodes). split; [done|]. split; [done|].
    intros d' b' [[= -> ->]|H]%elem_of_cons; [|by inv H].
    exists n', m. split; [apply lookup_insert_eq|done].
Qed.


End directory_index.

Section directory_shape.
Import IndexedDB.

Lemma directories_ok_empty : directories_ok ∅.
Proof. intros k n H. by rewrite lookup_empty in H. Qed.



(** The operations keep the shape of the store. *)
Lemma put_directories_ok st path body ct incoming :
  directories_ok (nodes st) →
  directories_ok (nodes (store (put st path body ct incoming))).
Proof.
  intros Hok. unfold put. destruct (Path.is_dir path) eqn:Hd; [done|].
  assert (directories_ok (<[path:=Node (Some body) None (Some ct) None]> (nodes st)))
    as Hok'.
  { apply directories_ok_insert; [done|]. by rewrite Hd. }
  destruct (addToParent_directories Body path _ Hok') as (nodes' & -> & ? & _).
  by rewrite nodes_completed.
Qed.





(** The example of the specification: writing ["a/b/c"] into an empty store
    creates ["a/b/"] listing ["c"] and ["a/"] listing ["b/"], and writing it
    again changes no node. *)
Lemma put_a_b_c :
  let o1 := put (DB ∅ ∅) "a/b/c" (JStr "v") "text/plain" false in
  let o2 := put (store o1) "a/b/c" (JStr "v") "text/plain" false in
  ancestors "a/b/c" = [("a/b/", "c"); ("a/", "b/")] ∧
  nodes (store o1) =
    {[ "a/b/c" := Node (Some (JStr "v")) None (Some "text/plain") None;
       "a/b/" := Node (Some (JMap {["c" := true]})) (Some (JMap ∅))
                      (Some "application/json") None;
       "a/" := Node (Some (JMap {["b/" := true]})) (Some (JMap ∅))
                    (Some "application/json") None ]} ∧
  nodes (store o2) = nodes (store o1).
Proof. vm_compute. done. Qed.

End directory_shape.

(** ** The root directory under [delete] *)

Section root_directory.
Import IndexedDB.





(** With a second child, or a cached entry, the root outlives the delete. *)
Lemma root_kept_while_listed :
  let st := store (put rooted_store "/b" (JStr "w") "text/plain" true) in
  let st' := store (setRevision rooted_store "/a" "r1") in
  nodes (store (delete st "/a" true)) !! "/" =
    Some (Node (Some (JMap {["b" := true]})) (Some (JMap ∅))
               (Some "application/json") None) ∧
  nodes (store (delete st' "/a" true)) !! "/" =
    Some (Node (Some (JMap ∅)) (Some (JMap {["a" := true]}))
               (Some "application/json") None).
Proof. vm_compute. done. Qed.

End root_directory.

(** ** What [put] and [delete] leave alone *)

Section frames.
Import IndexedDB.

(** The walks write directory keys only. *)
Lemma addToParent_documents key path : ∀ nodes nodes' q,
  addToParent nodes path key = Some nodes' →
  Path.is_dir q = false → nodes' !! q = nodes !! q.
Proof.
  induction path as [path IH] using path_length_ind.
  intros nodes nodes' q. rewrite addToParent_eq.
  destruct (Path.match_parts path) as [[d b]|] eqn:Hm; [|by intros [= ->]].
  pose proof (match_parts_length _ _ _ Hm) as Hlen.
  pose proof (match_parts_is_dir _ _ _ Hm) as Hd.
  destruct (mark_child key b _) as [n'|]; simpl; [|done].
  assert (Path.is_dir q = false → <[d:=n']> nodes !! q = nodes !! q) as Hq.
  { intros ?. apply lookup_insert_ne. intros ->. congruence. }
  case_bool_decide.
  - intros Hw ?. rewrite (IH d Hlen _ _ q Hw) by done. by apply Hq.
  - intros [= <-] ?. by apply Hq.
Qed.

Lemma removeFromParent_documents key path : ∀ nodes nodes' q,
  removeFromParent nodes path key = Some nodes' →
  Path.is_dir q = false → nodes' !! q = nodes !! q.
Proof.
  induction path as [path IH] using path_length_ind.
  intros nodes nodes' q. rewrite removeFromParent_eq.
  destruct (Path.match_parts path) as [[d b]|] eqn:Hm; [|by intros [= ->]].
  pose proof (match_parts_length _ _ _ Hm) as Hlen.
  pose proof (match_parts_is_dir _ _ _ Hm) as Hd.
  destruct (nodes !! d) as [n|]; [|done].
  destruct (unmark_child key b n) as [n'|]; simpl; [|done].
  destruct (keepDirNode n') as [[]|]; simpl; try done.
  - intros [= <-] ?. apply lookup_insert_ne. intros ->. congruence.
  - assert (Path.is_dir q = false → base.delete d nodes !! q = nodes !! q) as Hq.
    { intros ?. apply lookup_delete_ne. intros ->. congruence. }
    case_bool_decide.
    + intros Hw ?. rewrite (IH d Hlen _ _ q Hw) by done. by apply Hq.
    + intros [= <-] ?. by apply Hq.
Qed.

(** X1: [put] and [delete] at [p] never touch another document: whatever
    they do (commit, abort or throw), [get] at any other path that is not
    directory-shaped answers as before. *)
Theorem put_delete_leave_other_documents (st : db) (p q : string)
    (body : jsval) (ct : string) (incoming : bool) :
  Path.is_dir q = false → q ≠ p →
  get (store (put st p body ct incoming)) q = get st q ∧
  get (store (delete st p incoming)) q = get st q.
Proof.
  intros Hq Hne. unfold get, put, delete.
  destruct (Path.is_dir p); [done|]. split.
  - destruct (addToParent _ p Body) as [nodes'|] eqn:Hw; [|done].
    rewrite nodes_completed. simpl.
    rewrite (addToParent_documents _ _ _ _ q Hw Hq). by apply lookup_insert_ne.
  - destruct (removeFromParent _ p Body) as [nodes'|] eqn:Hw; [|done].
    rewrite nodes_completed. simpl.
    rewrite (removeFromParent_documents _ _ _ _ q Hw Hq).
    by apply lookup_delete_ne.
Qed.

Lemma put_delete_leave_other_documents_witness :
  get (store (put revised_store "a/b" (JStr "v") "text/plain" false)) "x"
    = get revised_store "x" ∧
  get (store (delete revised_store "a/b" false)) "x" = get revised_store "x".
Proof.
  apply (put_delete_leave_other_documents revised_store "a/b" "x");
    [reflexivity|discriminate].
Defined.

(** X2: a [delete] that commits leaves no node at the path: [get] answers
    404 there. *)
Theorem delete_then_get_not_found (st : db) (p : string) (incoming : bool) :
  result (delete st p incoming) = Fulfilled (Some 200) →
  get (store (delete st p incoming)) p = None.
Proof.
  intros Hok. destruct (delete_committed_inv _ _ _ Hok) as (_ & ns & Hw & Hn & _).
  unfold get. rewrite Hn, (removeFromParent_frame _ _ _ _ p Hw) by lia.
  apply lookup_delete_eq.
Qed.

Lemma delete_then_get_not_found_witness :
  get (store (delete rooted_store "/a" false)) "/a" = None.
Proof. apply delete_then_get_not_found. reflexivity. Defined.

End frames.

(** ** The directory index stays consistent *)

Section index_consistency.
Import IndexedDB.

Lemma extends_refl n : extends n n.
Proof. by intros b. Qed.

Lemma lists_nonempty b v : lists b v → ∃ w, v = Some w ∧ 0 < keys_length w.
Proof.
  intros (m & -> & [x Hx]). exists (JMap m). split; [done|]. simpl.
  destruct (decide (size m = 0)) as [H0|]; [|lia].
  apply map_size_empty_iff in H0. subst m. by rewrite lookup_empty in Hx.
Qed.

Lemma mark_child_extends key b n n' :
  mark_child key b n = Some n' → extends n n'.
Proof.
  unfold mark_child. destruct (get_ns key n) as [[s|m]|] eqn:Hg; [| |done].
  { intros [= <-]. apply extends_refl. }
  intros [= <-] b0.
  destruct key; simpl in *; split; try done;
    intros (m0 & Hm0 & Hb0); rewrite Hg in Hm0; injection Hm0 as <-;
    exists (<[b:=true]> m); (split; [done|]); rewrite lookup_insert;
    case_decide; [by eexists|done|by eexists|done].
Qed.

Lemma unmark_child_lists key b n n' b0 :
  unmark_child key b n = Some n' → b0 ≠ b →
  (lists b0 (body n) ∨ lists b0 (cached n)) →
  (lists b0 (body n') ∨ lists b0 (cached n')).
Proof.
  unfold unmark_child. destruct (get_ns key n) as [[s|m]|] eqn:Hg; [| |done].
  { by intros [= <-]. }
  intros [= <-] Hne. destruct key; simpl in *.
  - intros [(m0 & Hm0 & Hb0)|H]; [left|by right].
    rewrite Hg in Hm0. injection Hm0 as <-.
    exists (base.delete b m). split; [done|]. by rewrite lookup_delete_ne.
  - intros [H|(m0 & Hm0 & Hb0)]; [by left|right].
    rewrite Hg in Hm0. injection Hm0 as <-.
    exists (base.delete b m). split; [done|]. by rewrite lookup_delete_ne.
Qed.

(** A node that lists something passes [keepDirNode]. *)
Lemma lists_keepDirNode b n keep :
  (lists b (body n) ∨ lists b (cached n)) → keepDirNode n = Some keep →
  keep = true.
Proof.
  unfold keepDirNode. intros [H|H]; apply lists_nonempty in H as (w & Hw & Hpos).
  - rewrite Hw. rewrite bool_decide_eq_true_2 by done. by intros [= <-].
  - destruct (body n) as [bv|]; [|done].
    case_bool_decide; [by intros [= <-]|].
    rewrite Hw. rewrite bool_decide_eq_true_2 by done. by intros [= <-].
Qed.

Lemma listed_mono nodes nodes' q :
  (∀ d n, Path.is_dir d = true → nodes !! d = Some n →
          ∃ n', nodes' !! d = Some n' ∧ extends n n') →
  listed nodes q → listed nodes' q.
Proof.
  intros Hext. unfold listed.
  destruct (Path.match_parts q) as [[d b]|] eqn:Hm; [|done].
  apply match_parts_is_dir in Hm.
  intros (n & Hn & Hl). destruct (Hext _ _ Hm Hn) as (n' & Hn' & He).
  exists n'. split; [done|]. destruct (He b). tauto.
Qed.

(** Two paths with the same parts are the same path. *)
Lemma match_parts_inj p q d b :
  Path.match_parts p = Some (d, b) → Path.match_parts q = Some (d, b) → p = q.
Proof.
  intros Hp Hq. apply match_parts_append in Hp, Hq. congruence.
Qed.

(** [addToParent] repairs the index: if every node but the one at [path] was
    listed, every node is listed afterwards. *)
Lemma addToParent_index key path : ∀ nodes nodes',
  directories_ok nodes →
  (∀ q, q ≠ path → is_Some (nodes !! q) → listed nodes q) →
  addToParent nodes path key = Some nodes' →
  index_ok nodes'.
Proof.
  induction path as [path IH] using path_length_ind.
  intros nodes nodes' Hok Hidx. rewrite addToParent_eq.
  destruct (Path.match_parts path) as [[d b]|] eqn:Hm.
  2:{ intros [= <-] q Hq. destruct (decide (q = path)) as [->|]; [|by apply Hidx].
      unfold listed. by rewrite Hm. }
  pose proof (match_parts_length _ _ _ Hm) as Hlen.
  pose proof (match_parts_is_dir _ _ _ Hm) as Hd.
  assert (is_directory (default (makeNode d) (nodes !! d))) as Hn.
  { destruct (nodes !! d) as [n|] eqn:Hnd; simpl; [by eapply Hok|].
    by apply makeNode_is_directory. }
  destruct (mark_child_directory key b _ Hn) as (n' & m & Hmark & Hn' & Hg & Hb).
  rewrite Hmark. simpl.
  assert (directories_ok (<[d:=n']> nodes)) as Hok'.
  { by apply directories_ok_insert. }
  assert (∀ q, q ≠ d → is_Some (<[d:=n']> nodes !! q) → listed (<[d:=n']> nodes) q)
    as Hidx'.
  { intros q Hqd. rewrite lookup_insert_ne by done. intros Hq.
    destruct (decide (q = path)) as [->|Hqp].
    - unfold listed. rewrite Hm. exists n'. rewrite lookup_insert_eq.
      split; [done|]. destruct key; simpl in Hg; [left|right]; by exists m.
    - eapply listed_mono; [|by apply Hidx]. intros d0 n0 _ Hd0.
      destruct (decide (d0 = d)) as [->|].
      + exists n'. rewrite lookup_insert_eq. split; [done|].
        rewrite Hd0 in Hmark. simpl in Hmark. by eapply mark_child_extends.
      + exists n0. rewrite lookup_insert_ne by done. split; [done|].
        apply extends_refl. }
  case_bool_decide as Hroot.
  - by apply IH.
  - intros [= <-] q Hq. destruct (decide (q = d)) as [->|]; [|by apply Hidx'].
    subst d. done.
Qed.

(** The children of [d] other than [path] stay listed when [path]'s entry
    is dropped from [d]. *)
Lemma siblings_listed key nodes path d b n n' :
  nodes !! path = None → index_ok nodes →
  Path.match_parts path = Some (d, b) → nodes !! d = Some n →
  unmark_child key b n = Some n' →
  ∀ q b0, is_Some (nodes !! q) → Path.match_parts q = Some (d, b0) →
          lists b0 (body n') ∨ lists b0 (cached n').
Proof.
  intros Hnone Hidx Hm Hn Hu q b0 Hq Hmq.
  pose proof (Hidx q Hq) as Hl. unfold listed in Hl.
  rewrite Hmq in Hl. destruct Hl as (np & Hnp & Hl). rewrite Hn in Hnp.
  injection Hnp as <-. eapply unmark_child_lists; [done| |done].
  intros ->. rewrite (match_parts_inj _ _ _ _ Hmq Hm), Hnone in Hq.
  by destruct Hq.
Qed.

(** A directory that [keepDirNode] rejects has no stored child left, so the
    index stays consistent without it. *)
Lemma index_ok_drop key nodes path d b n n' :
  nodes !! path = None → index_ok nodes →
  Path.match_parts path = Some (d, b) → nodes !! d = Some n →
  unmark_child key b n = Some n' → keepDirNode n' = Some false →
  index_ok (base.delete d nodes).
Proof.
  intros Hnone Hidx Hm Hn Hu Hk q.
  rewrite lookup_delete. case_decide as Hqd; [by intros []|].
  intros Hq. pose proof (Hidx q Hq) as Hl. unfold listed in *.
  destruct (Path.match_parts q) as [[dq bq]|] eqn:Hmq; [|done].
  destruct (decide (dq = d)) as [->|].
  - pose proof (siblings_listed _ _ _ _ _ _ _ Hnone Hidx Hm Hn Hu q bq Hq Hmq)
      as Hl'.
    by pose proof (lists_keepDirNode _ _ _ Hl' Hk).
  - destruct Hl as (np & Hnp & Hl). exists np. by rewrite lookup_delete_ne.
Qed.


(** On a consistent store the walk of [removeFromParent] goes through as
    soon as the parent of [path] is stored: the directories further up are
    stored because the ones below are listed in them. *)
Lemma removeFromParent_commits key path : ∀ nodes,
  directories_ok nodes → index_ok nodes → nodes !! path = None →
  (∀ d b, Path.match_parts path = Some (d, b) → is_Some (nodes !! d)) →
  is_Some (removeFromParent nodes path key).
Proof.
  induction path as [path IH] using path_length_ind.
  intros nodes Hok Hidx Hnone Hparent. rewrite removeFromParent_eq.
  destruct (Path.match_parts path) as [[d b]|] eqn:Hm; [|done].
  pose proof (match_parts_length _ _ _ Hm) as Hlen.
  pose proof (match_parts_is_dir _ _ _ Hm) as Hd.
  destruct (Hparent d b eq_refl) as [n Hn]. rewrite Hn.
  pose proof (Hok d n Hn Hd) as (mb & mc & Hb & Hc).
  assert (∃ n', unmark_child key b n = Some n' ∧ is_directory n')
    as (n' & Hu & (mb' & mc' & Hb' & Hc')).
  { unfold unmark_child.
    destruct key; simpl; [rewrite Hb|rewrite Hc]; eexists; (split; [done|]);
      by eexists _, _. }
  rewrite Hu. simpl.
  assert (∃ keep, keepDirNode n' = Some keep) as [keep Hk].
  { unfold keepDirNode. rewrite Hb', Hc'. case_bool_decide; eauto. }
  rewrite Hk. simpl. destruct keep; [done|].
  case_bool_decide; [|done].
  apply IH; [done|by apply directories_ok_delete| |apply lookup_delete_eq|].
  - by eapply index_ok_drop.
  - intros g bg Hmd. pose proof (Hidx d (mk_is_Some _ _ Hn)) as Hl.
    unfold listed in Hl. rewrite Hmd in Hl. destruct Hl as (ng & Hng & _).
    exists ng. rewrite lookup_delete_ne; [done|]. intros ->.
    apply match_parts_length in Hmd. lia.
Qed.

(** Without its parent directory the walk raises at once. *)
Lemma removeFromParent_needs_parent key path nodes d b :
  Path.match_parts path = Some (d, b) → nodes !! d = None →
  removeFromParent nodes path key = None.
Proof. intros Hm Hn. by rewrite removeFromParent_eq, Hm, Hn. Qed.



Lemma consistent_empty : consistent ∅.
Proof.
  split; [apply directories_ok_empty|]. intros p [n Hn].
  by rewrite lookup_empty in Hn.
Qed.

Lemma index_ok_put_document nodes p n :
  Path.is_dir p = false → index_ok nodes →
  ∀ q, q ≠ p → is_Some (<[p:=n]> nodes !! q) → listed (<[p:=n]> nodes) q.
Proof.
  intros Hp Hidx q Hq. rewrite lookup_insert_ne by done. intros Hin.
  eapply listed_mono; [|by apply Hidx]. intros d n0 Hd Hn0.
  exists n0. split; [|apply extends_refl].
  rewrite lookup_insert_ne; [done|]. intros ->. congruence.
Qed.

Lemma index_ok_delete_document nodes p :
  Path.is_dir p = false → index_ok nodes → index_ok (base.delete p nodes).
Proof.
  intros Hp Hidx q. rewrite lookup_delete. case_decide; [by intros []|].
  intros Hin. eapply listed_mono; [|by apply Hidx]. intros d n0 Hd Hn0.
  exists n0. split; [|apply extends_refl].
  rewrite lookup_delete_ne; [done|]. intros ->. congruence.
Qed.

(** A [put] keeps the store consistent. *)
Lemma put_keeps_consistency st p body ct incoming :
  consistent (nodes st) →
  consistent (nodes (store (put st p body ct incoming))).
Proof.
  intros [Hok Hidx]. split; [by apply put_directories_ok|].
  unfold put. destruct (Path.is_dir p) eqn:Hp; [done|].
  destruct (addToParent _ p Body) as [nodes'|] eqn:Hw; [|done].
  rewrite nodes_completed. simpl.
  eapply addToParent_index; [| |done].
  - apply directories_ok_insert; [done|]. by rewrite Hp.
  - by apply index_ok_put_document.
Qed.



(** X4: on a consistent store, [delete] at a document path commits exactly
    when the path has no parent directory or its parent directory is stored;
    so deleting a stored document always commits, and it then emits one
    change event carrying the old body. *)
Theorem delete_commits_iff_parent_stored (st : db) (p : string)
    (incoming : bool) :
  consistent (nodes st) → Path.is_dir p = false →
  (result (delete st p incoming) = Fulfilled (Some 200) ↔
   ∀ d b, Path.match_parts p = Some (d, b) → is_Some (nodes st !! d)) ∧
  (∀ old, nodes st !! p = Some old →
     result (delete st p incoming) = Fulfilled (Some 200) ∧
     emitted (delete st p incoming) =
       [ChangeEvent p (if incoming then "remote" else "window")
                    (IndexedDB.body old) None]).
Proof.
  intros [Hok Hidx] Hp.
  assert ((∀ d b, Path.match_parts p = Some (d, b) → is_Some (nodes st !! d)) →
          result (delete st p incoming) = Fulfilled (Some 200)) as Hcommit.
  { intros Hparent. unfold delete. rewrite Hp.
    destruct (removeFromParent_commits Body p (base.delete p (nodes st)))
      as [nodes' ->].
    - by apply directories_ok_delete.
    - by apply index_ok_delete_document.
    - apply lookup_delete_eq.
    - intros d b Hm. rewrite lookup_delete_ne; [by eapply Hparent|].
      intros <-. apply match_parts_is_dir in Hm. congruence.
    - apply result_completed. }
  split; [split; [|done]|].
  - intros Hres d b Hm. destruct (nodes st !! d) eqn:Hd; [done|].
    unfold delete in Hres. rewrite Hp in Hres.
    rewrite (removeFromParent_needs_parent _ _ _ d b Hm) in Hres; [done|].
    rewrite lookup_delete_ne; [done|].
    intros <-. apply match_parts_is_dir in Hm. congruence.
  - intros old Hold.
    assert (result (delete st p incoming) = Fulfilled (Some 200)) as Hres.
    { apply Hcommit. intros d b Hm.
      pose proof (Hidx p (mk_is_Some _ _ Hold)) as Hl. unfold listed in Hl.
      rewrite Hm in Hl. destruct Hl as (n & -> & _). done. }
    split; [done|].
    destruct (delete_committed_inv _ _ _ Hres) as (_ & ? & _ & _ & ->).
    rewrite Hold. by destruct incoming.
Qed.

Lemma delete_commits_iff_parent_stored_witness :
  (result (delete rooted_store "/a" true) = Fulfilled (Some 200) ↔
   ∀ d b, Path.match_parts "/a" = Some (d, b) →
          is_Some (nodes rooted_store !! d)) ∧
  (∀ old, nodes rooted_store !! "/a" = Some old →
     result (delete rooted_store "/a" true) = Fulfilled (Some 200) ∧
     emitted (delete rooted_store "/a" true) =
       [ChangeEvent "/a" "remote" (IndexedDB.body old) None]).
Proof.
  apply (delete_commits_iff_parent_stored rooted_store "/a" true); [|reflexivity].
  replace (nodes rooted_store)
    with (nodes (store (put (DB ∅ ∅) "/a" (JStr "v") "text/plain" true)))
    by (vm_compute; reflexivity).
  apply put_keeps_consistency, consistent_empty.
Defined.



End index_consistency.

(** ** [delete] undoes [put] *)

Section put_then_delete.
Import IndexedDB.

Lemma ancestors_shorter d b : ∀ x,
  (d, b) ∈ ancestors x → String.length d < String.length x.
Proof.
  intros x. induction x as [x IHx] using path_length_ind.
  rewrite ancestors_eq.
  destruct (Path.match_parts x) as [[dx bx]|] eqn:Hmx; [|by inv 1].
  pose proof (match_parts_length _ _ _ Hmx).
  intros [[= -> ->]|Hin]%elem_of_cons; [done|].
  case_bool_decide; [|by inv Hin].
  specialize (IHx dx ltac:(done) Hin). lia.
Qed.

Lemma ancestors_is_dir d b : ∀ x, (d, b) ∈ ancestors x → Path.is_dir d = true.
Proof.
  intros x. induction x as [x IHx] using path_length_ind.
  rewrite ancestors_eq.
  destruct (Path.match_parts x) as [[dx bx]|] eqn:Hmx; [|by inv 1].
  pose proof (match_parts_length _ _ _ Hmx).
  intros [[= -> ->]|Hin]%elem_of_cons; [by eapply match_parts_is_dir|].
  case_bool_decide; [|by inv Hin]. by eapply IHx.
Qed.

Lemma ancestors_parent x d0 b0 d b :
  Path.match_parts x = Some (d0, b0) →
  (d, b) ∈ ancestors d0 → (d, b) ∈ ancestors x.
Proof.
  intros Hm Hin. rewrite ancestors_eq, Hm. right.
  case_bool_decide as Hroot; [done|]. by subst d0.
Qed.

(** The directory node [addToParent] creates for a first child, and what is
    left of it once the child is dropped. *)
Lemma mark_fresh_directory key d b :
  Path.is_dir d = true →
  ∃ n' n'', mark_child key b (makeNode d) = Some n' ∧
            unmark_child key b n' = Some n'' ∧
            keepDirNode n'' = Some false.
Proof.
  intros Hd. unfold makeNode, mark_child, unmark_child. rewrite Hd.
  destruct key; simpl; eexists _, _; (split; [done|]); simpl;
    (split; [done|]); unfold keepDirNode; simpl;
    by rewrite delete_insert_eq, delete_empty, map_size_empty.
Qed.

(** Where none of the directories above [path] is stored, the walk of
    [addToParent] goes through. *)
Lemma addToParent_fresh_commits key path : ∀ nodes,
  (∀ d b, (d, b) ∈ ancestors path → nodes !! d = None) →
  is_Some (addToParent nodes path key).
Proof.
  induction path as [path IH] using path_length_ind. intros nodes Habs.
  rewrite addToParent_eq.
  destruct (Path.match_parts path) as [[d b]|] eqn:Hm; [|done].
  pose proof (match_parts_length _ _ _ Hm) as Hlen.
  pose proof (match_parts_is_dir _ _ _ Hm) as Hd.
  rewrite (Habs d b) by (rewrite ancestors_eq, Hm; left). simpl.
  destruct (mark_fresh_directory key d b Hd) as (n' & _ & -> & _). simpl.
  case_bool_decide; [|done]. apply IH; [done|].
  intros d' b' Hin. rewrite lookup_insert_ne.
  - apply (Habs d' b'). by eapply ancestors_parent.
  - intros <-. apply ancestors_shorter in Hin. lia.
Qed.

(** What [addToParent] built from [path] upwards in a store that had none of
    these directories, [removeFromParent] takes down again; [Y] is any store
    that agrees with the one built on the keys shorter than [path]. *)
Lemma add_then_remove key path : ∀ nodes nodes1 Y,
  (∀ d b, (d, b) ∈ ancestors path → nodes !! d = None) →
  addToParent nodes path key = Some nodes1 →
  (∀ k, String.length k < String.length path → Y !! k = nodes1 !! k) →
  ∃ Y', removeFromParent Y path key = Some Y' ∧
        ∀ k, String.length k < String.length path → Y' !! k = nodes !! k.
Proof.
  induction path as [path IH] using path_length_ind.
  intros nodes nodes1 Y Habs. rewrite addToParent_eq, removeFromParent_eq.
  destruct (Path.match_parts path) as [[d b]|] eqn:Hm.
  2:{ intros [= <-] HY. by exists Y. }
  pose proof (match_parts_length _ _ _ Hm) as Hlen.
  pose proof (match_parts_is_dir _ _ _ Hm) as Hd.
  assert (nodes !! d = None) as Hnd.
  { apply (Habs d b). rewrite ancestors_eq, Hm. left. }
  rewrite Hnd. simpl.
  destruct (mark_fresh_directory key d b Hd) as (n' & n'' & -> & Hu & Hk). simpl.
  case_bool_decide as Hroot.
  - intros Hw HY.
    assert (Y !! d = Some n') as ->.
    { rewrite HY by done. rewrite (addToParent_frame _ _ _ _ d Hw) by lia.
      apply lookup_insert_eq. }
    rewrite Hu. simpl. rewrite Hk. simpl.
    destruct (IH d Hlen (<[d:=n']> nodes) nodes1 (base.delete d Y))
      as (Y' & HY' & Hshort); [|done| |].
    + intros d' b' Hin. rewrite lookup_insert_ne.
      * apply (Habs d' b'). by eapply ancestors_parent.
      * intros <-. apply ancestors_shorter in Hin. lia.
    + intros k Hk'. rewrite lookup_delete_ne by (intros <-; lia).
      apply HY. lia.
    + exists Y'. split; [done|]. intros k Hk'.
      destruct (decide (String.length k < String.length d)) as [Hkd|Hkd].
      * rewrite Hshort by done. apply lookup_insert_ne. intros <-. lia.
      * rewrite (removeFromParent_frame _ _ _ _ k HY') by lia.
        destruct (decide (k = d)) as [->|].
        -- by rewrite lookup_delete_eq.
        -- rewrite lookup_delete_ne by done. rewrite HY by done.
           rewrite (addToParent_frame _ _ _ _ k Hw) by lia.
           by apply lookup_insert_ne.
  - intros [= <-] HY.
    assert (Y !! d = Some n') as ->.
    { rewrite HY by done. apply lookup_insert_eq. }
    rewrite Hu. simpl. rewrite Hk. simpl.
    exists (base.delete d Y). split; [done|]. intros k Hk'.
    destruct (decide (k = d)) as [->|].
    + by rewrite lookup_delete_eq.
    + rewrite lookup_delete_ne by done. rewrite HY by done.
      by apply lookup_insert_ne.
Qed.

(** X6: [delete] undoes [put] on a fresh path: when neither the path nor
    any directory above it is stored, the [put] commits, the [delete] that
    follows commits, and the node store is exactly what it was before, with
    no directory node left over. *)
Theorem delete_undoes_put (st : db) (p : string) (body : jsval) (ct : string)
    (incoming : bool) :
  Path.is_dir p = false → nodes st !! p = None →
  (∀ d b, (d, b) ∈ ancestors p → nodes st !! d = None) →
  result (put st p body ct incoming) = Fulfilled (Some 200) ∧
  result (delete (store (put st p body ct incoming)) p incoming)
    = Fulfilled (Some 200) ∧
  nodes (store (delete (store (put st p body ct incoming)) p incoming))
    = nodes st.
Proof.
  intros Hp Hnone Habs.
  set (n := Node (Some body) None (Some ct) None).
  assert (∀ d b, (d, b) ∈ ancestors p → <[p:=n]> (nodes st) !! d = None) as Habs'.
  { intros d b Hin. rewrite lookup_insert_ne; [by eapply Habs|].
    intros <-. apply ancestors_is_dir in Hin. congruence. }
  destruct (addToParent_fresh_commits Body p _ Habs') as [nodes1 Hw].
  assert (put st p body ct incoming =
          completed (DB nodes1 (changes st)) p incoming "PUT"
            [Emit (Change (ChangeEvent p (origin_of incoming)
                             (nodes st !! p ≫= IndexedDB.body) (Some body)))])
    as ->.
  { unfold put. rewrite Hp. fold n. by rewrite Hw. }
  rewrite result_completed. split; [done|].
  unfold delete. rewrite Hp, nodes_completed. simpl.
  destruct (add_then_remove Body p _ nodes1 (base.delete p nodes1) Habs' Hw)
    as (Y' & HY' & Hshort).
  { intros k Hk. apply lookup_delete_ne. intros <-. lia. }
  rewrite HY', result_completed, nodes_completed. split; [done|]. simpl.
  apply map_eq. intros k.
  destruct (decide (String.length k < String.length p)) as [Hk|Hk].
  - rewrite Hshort by done. apply lookup_insert_ne. intros <-. lia.
  - rewrite (removeFromParent_frame _ _ _ _ k HY') by lia.
    destruct (decide (k = p)) as [->|].
    + by rewrite lookup_delete_eq.
    + rewrite lookup_delete_ne by done.
      rewrite (addToParent_frame _ _ _ _ k Hw) by lia.
      by apply lookup_insert_ne.
Qed.

Lemma delete_undoes_put_witness :
  result (put revised_store "a/b/c" (JStr "v") "text/plain" false)
    = Fulfilled (Some 200) ∧
  result (delete (store (put revised_store "a/b/c" (JStr "v") "text/plain" false))
                 "a/b/c" false) = Fulfilled (Some 200) ∧
  nodes (store (delete (store (put revised_store "a/b/c" (JStr "v")
                                   "text/plain" false)) "a/b/c" false))
    = nodes revised_store.
Proof.
  apply delete_undoes_put; [reflexivity|reflexivity|].
  intros d b Hin. vm_compute in Hin.
  apply elem_of_cons in Hin as [[= -> ->]|Hin]; [reflexivity|].
  apply elem_of_cons in Hin as [[= -> ->]|Hin]; [reflexivity|].
  inversion Hin.
Defined.

End put_then_delete.

(** ** The change log under the operations *)

Section change_log_composition.
Import IndexedDB.

(** The records the scan of [changesBelow] finds. *)
Lemma changesBelow_scan_elem (cs : gmap string (gmap string cval)) p k c :
  (k, c) ∈ changesBelow_scan p (openCursor p cs) ↔
  cs !! k = Some c ∧ Path.starts_with p k = true.
Proof.
  unfold openCursor.
  rewrite (scan_is_filter p _ (StronglySorted_merge_sort key_le (map_to_list cs))).
  rewrite list_elem_of_filter, cursor_order_elem. simpl. tauto.
Qed.

Lemma changesBelow_elem st p c :
  c ∈ changesBelow st p ↔
  ∃ k, changes st !! k = Some c ∧ Path.starts_with p k = true.
Proof.
  unfold changesBelow. rewrite list_elem_of_fmap. split.
  - intros ([k c'] & -> & Hin). apply changesBelow_scan_elem in Hin. eauto.
  - intros (k & Hk & Hp). exists (k, c). split; [done|].
    by apply changesBelow_scan_elem.
Qed.

(** X7: a local [put] or [delete] that commits shows in [changesBelow] of
    every prefix of its path, as the record of that path with the action
    merged in, and changes nothing else in what [changesBelow] finds, for
    any prefix. *)
Theorem local_mutation_in_changesBelow (st : db) (p q : string)
    (body : jsval) (ct : string) :
  let found (s : db) := changesBelow_scan q (openCursor q (changes s)) in
  (result (put st p body ct false) = Fulfilled (Some 200) →
   ∀ k c, (k, c) ∈ found (store (put st p body ct false)) ↔
          (k ≠ p ∧ (k, c) ∈ found st) ∨
          (k = p ∧ Path.starts_with q p = true ∧
           c = {["action" := CStr "PUT"]} ∪
               <["path" := CStr p]> (default ∅ (changes st !! p)))) ∧
  (result (delete st p false) = Fulfilled (Some 200) →
   ∀ k c, (k, c) ∈ found (store (delete st p false)) ↔
          (k ≠ p ∧ (k, c) ∈ found st) ∨
          (k = p ∧ Path.starts_with q p = true ∧
           c = {["action" := CStr "DELETE"]} ∪
               <["path" := CStr p]> (default ∅ (changes st !! p)))).
Proof.
  assert (∀ nodes' action events k c,
    (k, c) ∈ changesBelow_scan q (openCursor q (changes (store
       (completed (DB nodes' (changes st)) p false action events)))) ↔
    (k ≠ p ∧ (k, c) ∈ changesBelow_scan q (openCursor q (changes st))) ∨
    (k = p ∧ Path.starts_with q p = true ∧
     c = {["action" := CStr action]} ∪
         <["path" := CStr p]> (default ∅ (changes st !! p)))) as Hgen.
  { intros nodes' action events k c. rewrite completed_local. simpl.
    rewrite !changesBelow_scan_elem. unfold merged_change. simpl.
    rewrite lookup_insert. case_decide as Hk.
    - subst k. split.
      + intros [[= <-] ?]. by right.
      + intros [[? _]|(_ & ? & ->)]; [done|]. done.
    - split; [intros [? ?]; left; auto|].
      intros [[_ ?]|[-> _]]; done. }
  simpl. split.
  - unfold put. destruct (Path.is_dir p); [done|].
    destruct (addToParent _ p Body); [|done]. intros _. apply Hgen.
  - unfold delete. destruct (Path.is_dir p); [done|].
    destruct (removeFromParent _ p Body); [|done]. intros _. apply Hgen.
Qed.

Lemma local_mutation_in_changesBelow_witness :
  result (put (DB ∅ example_changes) "a/new" (JStr "v") "text/plain" false)
    = Fulfilled (Some 200) ∧
  ("a/new", {["action" := CStr "PUT"]} ∪
            <["path" := CStr "a/new"]>
              (default ∅ (changes (DB ∅ example_changes) !! "a/new")))
    ∈ changesBelow_scan "a/"
        (openCursor "a/" (changes (store
           (put (DB ∅ example_changes) "a/new" (JStr "v") "text/plain" false)))).
Proof.
  assert (result (put (DB ∅ example_changes) "a/new" (JStr "v") "text/plain" false)
            = Fulfilled (Some 200)) as Hput by reflexivity.
  split; [exact Hput|].
  apply (proj1 (local_mutation_in_changesBelow (DB ∅ example_changes)
                  "a/new" "a/" (JStr "v") "text/plain") Hput).
  right. split; [reflexivity|]. split; reflexivity.
Defined.

(** X8: [clearChange(p)] removes the record of [p] and no other: what
    [changesBelow] finds afterwards, for any prefix, is what it found before
    without the record of key [p]; the node store is untouched; and clearing
    the change of a local [put] at a path that had no pending change gives
    the change log back as it was. *)
Theorem clearChange_removes_one (st : db) (p q : string) (body : jsval)
    (ct : string) :
  (∀ k c, (k, c) ∈ changesBelow_scan q
                     (openCursor q (changes (store (clearChange st p)))) ↔
          k ≠ p ∧ (k, c) ∈ changesBelow_scan q (openCursor q (changes st))) ∧
  nodes (store (clearChange st p)) = nodes st ∧
  (changes st !! p = None →
   changes (store (clearChange (store (put st p body ct false)) p)) = changes st).
Proof.
  split; [|split; [done|]].
  - intros k c. rewrite !changesBelow_scan_elem. simpl.
    rewrite lookup_delete. case_decide as Hk.
    + subst k. split; [by intros [? _]|by intros [? _]].
    + split; [intros [? ?]|by intros [_ ?]].
      split; [congruence|done].
  - intros Hnone. unfold put. destruct (Path.is_dir p).
    { simpl. by apply delete_id. }
    destruct (addToParent _ p Body).
    + rewrite completed_local. simpl. rewrite delete_insert_eq.
      by apply delete_id.
    + simpl. by apply delete_id.
Qed.

(** X9: a recorded conflict and a recorded action live side by side: a
    local [put] that commits after [setConflict] leaves the conflict block
    stored and sets the action, and a [setConflict] after a local [put]
    leaves the action PUT stored. *)
Theorem conflict_and_action_coexist (st : db) (p : string)
    (attrs : gmap string string) (body : jsval) (ct : string) :
  let action (s : db) := c ← changes s !! p; c !! "action" in
  (result (put (store (setConflict st p attrs)) p body ct false)
     = Fulfilled (Some 200) →
   stored_conflict (store (put (store (setConflict st p attrs)) p body ct false)) p
     = Some attrs ∧
   action (store (put (store (setConflict st p attrs)) p body ct false))
     = Some (CStr "PUT")) ∧
  (result (put st p body ct false) = Fulfilled (Some 200) →
   stored_conflict (store (setConflict (store (put st p body ct false)) p attrs)) p
     = Some attrs ∧
   action (store (setConflict (store (put st p body ct false)) p attrs))
     = Some (CStr "PUT")).
Proof.
  simpl. split.
  - unfold put. destruct (Path.is_dir p); [done|].
    destruct (addToParent _ p Body); [|done]. intros _.
    rewrite completed_local. unfold setConflict, stored_conflict.
    rewrite recordChange_conflict. unfold merged_change. simpl.
    rewrite !lookup_insert_eq. simpl.
    rewrite (lookup_union_r {["action" := CStr "PUT"]}) by done.
    rewrite lookup_insert_ne by done.
    rewrite (lookup_union_l' {["conflict" := CObj attrs]})
      by (by rewrite lookup_singleton_eq).
    rewrite lookup_singleton_eq. simpl. split; [done|].
    by rewrite lookup_union_l', lookup_singleton_eq.
  - unfold put. destruct (Path.is_dir p); [done|].
    destruct (addToParent _ p Body); [|done]. intros _.
    rewrite completed_local. unfold setConflict, stored_conflict.
    rewrite recordChange_conflict. unfold merged_change. simpl.
    rewrite !lookup_insert_eq. simpl.
    rewrite (lookup_union_l' {["conflict" := CObj attrs]})
      by (by rewrite lookup_singleton_eq).
    rewrite lookup_singleton_eq. simpl. split; [done|].
    rewrite (lookup_union_r {["conflict" := CObj attrs]}) by done.
    rewrite lookup_insert_ne by done.
    by rewrite lookup_union_l', lookup_singleton_eq.
Qed.

Lemma conflict_and_action_coexist_witness :
  stored_conflict
    (store (put (store (setConflict (DB ∅ ∅) "p" {["localAction" := "PUT"]}))
                "p" (JStr "v") "text/plain" false)) "p"
    = Some {["localAction" := "PUT"]} ∧
  (changes (store (put (store (setConflict (DB ∅ ∅) "p" {["localAction" := "PUT"]}))
                       "p" (JStr "v") "text/plain" false)) !! "p"
     ≫= (.!! "action")) = Some (CStr "PUT").
Proof.
  apply (proj1 (conflict_and_action_coexist (DB ∅ ∅) "p" {["localAction" := "PUT"]}
                  (JStr "v") "text/plain")).
  reflexivity.
Defined.

End change_log_composition.

Section put_then_delete_log.
Import IndexedDB.

(** On a consistent store a stored document can be deleted. *)
Lemma delete_stored_commits st p old :
  consistent (nodes st) → Path.is_dir p = false → nodes st !! p = Some old →
  ∃ nodes', removeFromParent (base.delete p (nodes st)) p Body = Some nodes'.
Proof.
  intros [Hok Hidx] Hp Hold.
  apply (removeFromParent_commits Body p (base.delete p (nodes st))).
  - by apply directories_ok_delete.
  - by apply index_ok_delete_document.
  - apply lookup_delete_eq.
  - intros d b Hm. pose proof (Hidx p (mk_is_Some _ _ Hold)) as Hl.
    unfold listed in Hl. rewrite Hm in Hl. destruct Hl as (n & Hn & _).
    exists n. rewrite lookup_delete_ne; [done|].
    intros <-. apply match_parts_is_dir in Hm. congruence.
Qed.

(** X10: on a consistent store, a local [put] followed by a local [delete]
    of the same document path both commit; the document is gone, the
    [delete] reports the body just written as the old value, and the change
    log holds one record for the path whose action is DELETE. *)
Theorem put_then_delete_records_delete (st : db) (p : string) (body : jsval)
    (ct : string) :
  consistent (nodes st) → Path.is_dir p = false →
  let o1 := put st p body ct false in
  let o2 := delete (store o1) p false in
  result o1 = Fulfilled (Some 200) ∧
  result o2 = Fulfilled (Some 200) ∧
  get (store o2) p = None ∧
  emitted o2 = [ChangeEvent p "window" (Some body) None] ∧
  ∃ c, changes (store o2) !! p = Some c ∧
       c !! "path" = Some (CStr p) ∧ c !! "action" = Some (CStr "DELETE").
Proof.
  intros Hc Hp. simpl.
  pose proof (put_keeps_consistency st p body ct false Hc) as Hc1.
  set (n := Node (Some body) None (Some ct) None).
  assert (directories_ok (<[p:=n]> (nodes st))) as Hok'.
  { apply directories_ok_insert; [by destruct Hc|]. by rewrite Hp. }
  destruct (addToParent_directories Body p _ Hok') as (nodes1 & Hw & _ & _).
  assert (put st p body ct false =
          completed (DB nodes1 (changes st)) p false "PUT"
            [Emit (Change (ChangeEvent p (origin_of false)
                             (nodes st !! p ≫= IndexedDB.body) (Some body)))])
    as Hput.
  { unfold put. rewrite Hp. fold n. by rewrite Hw. }
  rewrite Hput in Hc1 |- *. rewrite nodes_completed in Hc1. simpl in Hc1.
  rewrite result_completed. split; [done|].
  assert (nodes1 !! p = Some n) as Hn.
  { rewrite (addToParent_frame _ _ _ _ p Hw) by lia. apply lookup_insert_eq. }
  set (st1 := store (completed _ p false "PUT" _)).
  assert (nodes st1 = nodes1) as Hst1 by apply nodes_completed.
  destruct (delete_stored_commits st1 p n) as [nodes2 Hw2];
    [by rewrite Hst1|done|by rewrite Hst1|].
  unfold delete. rewrite Hp, Hw2, Hst1, Hn, result_completed. split; [done|].
  unfold get. rewrite nodes_completed, emitted_completed. simpl.
  split; [|split; [done|]].
  - rewrite (removeFromParent_frame _ _ _ _ p Hw2) by lia.
    rewrite Hst1. apply lookup_delete_eq.
  - rewrite recordChange_plain by done. simpl. rewrite lookup_insert_eq.
    eexists. split; [done|]. unfold merged_change. split.
    + by rewrite lookup_union_r, lookup_insert_eq.
    + by rewrite lookup_union_l', lookup_singleton_eq.
Qed.

Lemma put_then_delete_records_delete_witness :
  let o1 := put rooted_store "/b/c" (JStr "w") "text/plain" false in
  let o2 := delete (store o1) "/b/c" false in
  result o1 = Fulfilled (Some 200) ∧
  result o2 = Fulfilled (Some 200) ∧
  get (store o2) "/b/c" = None ∧
  emitted o2 = [ChangeEvent "/b/c" "window" (Some (JStr "w")) None] ∧
  ∃ c, changes (store o2) !! "/b/c" = Some c ∧
       c !! "path" = Some (CStr "/b/c") ∧ c !! "action" = Some (CStr "DELETE").
Proof.
  apply (put_then_delete_records_delete rooted_store "/b/c"); [|reflexivity].
  replace (nodes rooted_store)
    with (nodes (store (put (DB ∅ ∅) "/a" (JStr "v") "text/plain" true)))
    by (vm_compute; reflexivity).
  apply put_keeps_consistency, consistent_empty.
Defined.

End put_then_delete_log.

(** ** Reading back: [fireInitial], [getCached], [getRevision] *)

Section reading.
Import IndexedDB.

Lemma entry_le_trans {A} : Transitive (@entry_le A).
Proof. intros a b c. unfold entry_le. apply transitivity. Qed.

Lemma entry_le_total {A} : Total (@entry_le A).
Proof. intros a b. unfold entry_le. apply total, _. Qed.

Lemma cursor_order_sorted {A} (m : gmap string A) :
  StronglySorted entry_le (cursor_order m).
Proof.
  apply (@StronglySorted_merge_sort _ entry_le entry_le_dec
           entry_le_trans entry_le_total).
Qed.

Lemma cursor_order_perm {A} (m : gmap string A) :
  cursor_order m ≡ₚ map_to_list m.
Proof. apply merge_sort_Permutation. Qed.

Lemma substr_last_is_dir s :
  bool_decide (substr_last s ≠ "/") = negb (Path.is_dir s).
Proof.
  unfold substr_last, Path.is_dir. destruct (Path.last_char s) as [c|]; [|done].
  destruct (decide (c = "/"%char)) as [->|Hc]; [done|].
  rewrite (bool_decide_eq_false_2 (c = "/"%char)) by done.
  apply bool_decide_eq_true_2. congruence.
Qed.

Lemma strictly_sorted_entries {A} (l : list (string * A)) :
  StronglySorted entry_le l → NoDup l.*1 →
  StronglySorted (λ a b, (a ≤ b)%string ∧ a ≠ b) l.*1.
Proof.
  induction 1 as [|[k v] l Hl IH Hall]; simpl; [constructor|].
  rewrite NoDup_cons. intros [Hk Hnd]. constructor; [by apply IH|].
  rewrite Forall_forall in Hall. apply Forall_forall. intros k' Hk'. split.
  - apply list_elem_of_fmap in Hk' as [[k2 v2] [-> Hin]]. apply (Hall _ Hin).
  - intros <-. done.
Qed.

Lemma fireInitial_documents st :
  fireInitial st =
  Transaction "nodes" "readonly" ::
  ((λ kv : string * node,
      Emit (Change (ChangeEvent kv.1 "remote" None (body kv.2)))) <$> documents st).
Proof.
  unfold fireInitial, documents. f_equal.
  induction (cursor_order (nodes st)) as [|[k n] l IH]; [done|].
  csimpl. rewrite substr_last_is_dir, IH.
  destruct (Path.is_dir k) eqn:Hk; csimpl.
  - rewrite filter_cons_False; [done|]. simpl. congruence.
  - by rewrite filter_cons_True by done.
Qed.

Lemma documents_elem st k n :
  (k, n) ∈ documents st ↔ nodes st !! k = Some n ∧ Path.is_dir k = false.
Proof.
  unfold documents.
  rewrite list_elem_of_filter, cursor_order_perm, elem_of_map_to_list.
  simpl. tauto.
Qed.

Lemma documents_sorted st :
  StronglySorted (λ a b, (a ≤ b)%string ∧ a ≠ b) (documents st).*1.
Proof.
  apply strictly_sorted_entries.
  - apply StronglySorted_filter, cursor_order_sorted.
  - eapply sublist_NoDup; [|apply fmap_sublist, sublist_filter].
    rewrite cursor_order_perm. apply NoDup_fst_map_to_list.
Qed.

(** X11: [fireInitial] opens one read-only transaction and emits change
    events only; there is an event for a path exactly when a node is stored
    at that path and the path does not end in a slash, the event then has
    origin ["remote"], no old value and the node's body as new value; the
    events come in strictly ascending order of their paths, so each document
    has one. *)
Theorem fireInitial_emits_documents (st : db) :
  let events := emitted (Outcome Returned st (fireInitial st)) in
  transactions (Outcome Returned st (fireInitial st)) = [("nodes", "readonly")] ∧
  length events + 1 = length (fireInitial st) ∧
  (∀ e, e ∈ events ↔
        ∃ n, nodes st !! ev_path e = Some n ∧ Path.is_dir (ev_path e) = false ∧
             e = ChangeEvent (ev_path e) "remote" None (body n)) ∧
  StronglySorted (λ a b, (a ≤ b)%string ∧ a ≠ b) (ev_path <$> events).
Proof.
  cbv zeta. unfold emitted, transactions. cbn [trace].
  rewrite fireInitial_documents. csimpl.
  assert (∀ l : list (string * node),
    omap (λ e, match e with Emit (Change c) => Some c | _ => None end)
         ((λ kv : string * node,
             Emit (Change (ChangeEvent kv.1 "remote" None (body kv.2)))) <$> l)
    = (λ kv : string * node, ChangeEvent kv.1 "remote" None (body kv.2)) <$> l)
    as ->.
  { induction l as [|kv l IH]; [done|]. csimpl. by rewrite IH. }
  assert (∀ l : list (string * node),
    omap (λ e, match e with Transaction s m => Some (s, m) | _ => None end)
         ((λ kv : string * node,
             Emit (Change (ChangeEvent kv.1 "remote" None (body kv.2)))) <$> l)
    = []) as ->.
  { induction l as [|kv l IH]; [done|]. csimpl. by rewrite IH. }
  split; [done|]. split; [rewrite !length_fmap; lia|]. split.
  - intros e. rewrite list_elem_of_fmap. split.
    + intros ([k n] & -> & Hin). apply documents_elem in Hin as [Hn Hd].
      simpl. eauto.
    + intros (n & Hn & Hd & He). exists (ev_path e, n). split; [done|].
      by apply documents_elem.
  - rewrite <-list_fmap_compose.
    replace (ev_path ∘ _) with (@fst string node); [apply documents_sorted|done].
Qed.

(** X12: a document written by a [put] that commits is among the events of
    [fireInitial], with the body written as its new value. *)
Theorem fireInitial_after_put (st : db) (p : string) (body : jsval)
    (ct : string) (incoming : bool) :
  result (put st p body ct incoming) = Fulfilled (Some 200) →
  Emit (Change (ChangeEvent p "remote" None (Some body)))
    ∈ fireInitial (store (put st p body ct incoming)).
Proof.
  intros Hok.
  destruct (put_committed_inv _ _ _ _ _ Hok) as (Hp & nodes' & Hw & Hn & _).
  rewrite fireInitial_documents. right.
  apply list_elem_of_fmap.
  exists (p, Node (Some body) None (Some ct) None). split; [done|].
  apply documents_elem. split; [|done]. rewrite Hn.
  rewrite (addToParent_frame _ _ _ _ p Hw) by lia. apply lookup_insert_eq.
Qed.

Lemma fireInitial_after_put_witness :
  Emit (Change (ChangeEvent "a/b" "remote" None (Some (JStr "v"))))
    ∈ fireInitial (store (put revised_store "a/b" (JStr "v") "text/plain" true)).
Proof. apply fireInitial_after_put. reflexivity. Defined.



End reading.

(** ** The transport: requests and responses *)

Section transport_round_trip.
Import GetPutDelete.
Context {json : Type} (JSON_parse : string → option json)
        (rawToBuffer : string → list Byte.byte).

Lemma before_semicolon_append m rest :
  before_semicolon (m +:+ String ";" rest) = before_semicolon m.
Proof.
  induction m as [|c m IH]; [done|]. rewrite append_cons. simpl.
  by rewrite IH.
Qed.

Lemma occurs_cons pat c rest :
  occurs pat (String c rest) = String.prefix pat (String c rest) || occurs pat rest.
Proof. done. Qed.

Lemma prefix_char a c rest :
  String.prefix (String a "") (String c rest) = bool_decide (a = c).
Proof.
  cbn [String.prefix]. destruct (Ascii.ascii_dec a c) as [->|Hne].
  - rewrite bool_decide_eq_true_2 by done. by destruct rest.
  - by rewrite bool_decide_eq_false_2.
Qed.

Lemma prefix_refl s : String.prefix s s = true.
Proof.
  induction s as [|c s IH]; [done|]. cbn [String.prefix].
  destruct (Ascii.ascii_dec c c); [done|congruence].
Qed.



Lemma before_semicolon_id s : occurs ";" s = false → before_semicolon s = s.
Proof.
  induction s as [|c s IH]; [done|]. rewrite occurs_cons, prefix_char.
  intros [Hc Hs]%orb_false_iff. cbn [before_semicolon].
  apply bool_decide_eq_false in Hc.
  rewrite bool_decide_eq_false_2 by congruence. f_equal. by apply IH.
Qed.

Lemma occurs_append pat a b : occurs pat b = true → occurs pat (a +:+ b) = true.
Proof.
  intros Hb. induction a as [|c a IH]; [done|].
  rewrite append_cons, occurs_cons, IH. apply orb_true_r.
Qed.


(** X15: binary data makes the round trip: the request [set] sends for an
    [ArrayBuffer] carries a content type that, when it comes back as the
    [content-type] of a response, makes the receiver decode the data with
    [rawToBuffer] and report the mime type that was given to [set] (up to a
    semicolon in it). *)
Theorem binary_round_trip (url mimeType : string) (bytes : list Byte.byte)
    (token : option string) (data : string) :
  mimeType ≠ "" →
  ∃ r ct, set url (ArrayBuffer bytes) (Some mimeType) token = [Ajax r] ∧
          method r = "PUT" ∧ GetPutDelete.data r = Some (ArrayBuffer bytes) ∧
          headers r !! "Content-Type" = Some ct ∧
          on_response JSON_parse rawToBuffer data {["content-type" := ct]} =
            Fulfill (Binary (rawToBuffer data))
                    (Some (before_semicolon mimeType)) ∧
          (occurs ";" mimeType = false → before_semicolon mimeType = mimeType).
Proof.
  intros Hm. unfold set, put, doCall. simpl.
  rewrite (bool_decide_eq_false_2 (mimeType = "")) by done.
  eexists _, _. split; [done|]. simpl. split; [done|]. split; [done|].
  split; [apply lookup_insert_eq|]. split; [|apply before_semicolon_id].
  unfold on_response. rewrite lookup_singleton_eq.
  assert (mimeType +:+ "; charset=binary" ≠ "") as Hne.
  { by destruct mimeType. }
  rewrite (bool_decide_eq_false_2 _ Hne).
  rewrite (occurs_append "charset=binary" mimeType "; charset=binary") by done.
  by rewrite before_semicolon_append.
Qed.

(** X16: the callback given to [set] never hears of the outcome: it is
    called only with the error for an invalid value, at most once and before
    the request; for [undefined], a string or an [ArrayBuffer] it is not
    called at all.  In every case exactly one request is sent, and the
    request carries the callback function itself as its [timeout], never a
    number of milliseconds. *)
Theorem set_callback_is_the_deadline (url : string) (v : value)
    (mimeType token : option string) :
  ∃ r, timeout r = Function ∧
       (set url v mimeType token = [Ajax r] ∨
        (typeof v ≠ "undefined" ∧ typeof v ≠ "string" ∧
         instanceof_ArrayBuffer v = false ∧
         ∃ e, set url v mimeType token = [Callback e; Ajax r])).
Proof.
  unfold set, put, doCall.
  destruct v; simpl; eexists;
    (split; [|first [left; reflexivity
                    |right; repeat split; try done; eexists; reflexivity]]);
    reflexivity.
Qed.

End transport_round_trip.

Section transport_witness.
Import GetPutDelete.

Lemma binary_round_trip_witness :
  ∃ r ct, set "https://storage.example/x" (ArrayBuffer []) (Some "image/png") None
            = [Ajax r] ∧
          method r = "PUT" ∧ GetPutDelete.data r = Some (ArrayBuffer []) ∧
          headers r !! "Content-Type" = Some ct ∧
          on_response (λ _ : string, @None unit) list_byte_of_string "raw"
                      {["content-type" := ct]} =
            Fulfill (Binary (list_byte_of_string "raw"))
                    (Some (before_semicolon "image/png")) ∧
          (occurs ";" "image/png" = false →
           before_semicolon "image/png" = "image/png").
Proof.
  apply (binary_round_trip (λ _ : string, @None unit) list_byte_of_string).
  discriminate.
Defined.

End transport_witness.

(** ** [setRevisions]: the requests of several pairs interleave *)

Section request_queue.
Import IndexedDB.

Lemma run_get fuel nodes k h rest :
  run (S fuel) nodes (GetRequest k h :: rest) =
  match h (nodes !! k) with
  | None => Aborted
  | Some placed => run fuel nodes (rest ++ placed)
  end.
Proof. done. Qed.

Lemma run_put fuel nodes k v placed rest :
  run (S fuel) nodes (PutRequest k v placed :: rest) =
  run fuel (<[k:=v]> nodes) (rest ++ placed).
Proof. done. Qed.

(** More fuel does not change a result. *)
Lemma run_mono fuel : ∀ nodes queue fuel',
  run fuel nodes queue ≠ Pending → fuel <= fuel' →
  run fuel' nodes queue = run fuel nodes queue.
Proof.
  induction fuel as [|fuel IH]; intros nodes queue fuel' Hres Hle.
  - destruct queue; [by destruct fuel'|done].
  - destruct queue as [|r rest]; [by destruct fuel'|].
    destruct fuel' as [|fuel']; [lia|].
    destruct r as [k h|k v placed].
    + rewrite !run_get in *. destruct (h (nodes !! k)); [|done].
      apply IH; [done|lia].
    + rewrite !run_put in *. apply IH; [done|lia].
Qed.

(** The walk of the source is the walk along its pairs. *)
Lemma addToParent_walk_seq key path : ∀ nodes,
  addToParent nodes path key = walk_seq key (ancestors path) nodes.
Proof.
  induction path as [path IH] using path_length_ind. intros nodes.
  rewrite addToParent_eq, ancestors_eq.
  destruct (Path.match_parts path) as [[d b]|] eqn:Hm; [|done].
  apply match_parts_length in Hm. simpl.
  destruct (mark_child key b _) as [n'|]; simpl; [|done].
  case_bool_decide; [by apply IH|done].
Qed.

(** One walk alone runs request by request as [walk_seq] does. *)
Lemma run_walk key walk : ∀ nodes fuel,
  2 * length walk <= fuel →
  run fuel nodes (walk_requests key walk) = lift (walk_seq key walk nodes).
Proof.
  induction walk as [|[d b] walk IH]; intros nodes fuel Hf; simpl.
  { by destruct fuel. }
  destruct fuel as [|[|fuel]]; [simpl in Hf; lia..|].
  cbn [walk_requests]. rewrite run_get.
  destruct (mark_child key b _) as [n'|]; simpl; [|done].
  apply IH. simpl in Hf. lia.
Qed.


(** X17: for one pair there is nothing to interleave: [setRevisions] of
    [[path, revision]] reads the node, stores it with the revision and walks
    upwards under ['cached'], one request after the other, and its outcome is
    that of [setRevision]. *)
Theorem setRevisions_single (st : db) (p rev : string) :
  setRevisions st [(p, rev)] = setRevision st p rev.
Proof.
  unfold setRevisions, setRevision, setRevisions_fuel, setRevisions_requests.
  simpl. rewrite Nat.add_0_r. unfold addToParent_requests.
  rewrite run_walk by lia. rewrite addToParent_walk_seq.
  by destruct (walk_seq Cached (ancestors p) _).
Qed.



(** *** [setRevisions] on a well-shaped store *)

Lemma sound_mono n m queue : sound n queue → n <= m → sound m queue.
Proof.
  intros H Hle. destruct H.
  - constructor.
  - eapply sound_get; [done..|lia].
  - eapply sound_put; [done..|lia].
Qed.

Lemma sound_app q1 : ∀ a b q2,
  sound a q1 → sound b q2 → sound (a + b) (q1 ++ q2).
Proof.
  induction q1 as [|r q1 IH]; intros a b q2 H1 H2; simpl.
  { eapply sound_mono; [done|lia]. }
  inv H1.
  - eapply sound_get; [done|by apply IH|lia].
  - eapply sound_put; [done|done|by apply IH|lia].
Qed.

(** A sound queue runs to the end, and the store keeps its shape. *)
Lemma run_sound n : ∀ nodes queue,
  directories_ok nodes → sound n queue →
  ∃ nodes', run n nodes queue = Committed nodes' ∧ directories_ok nodes'.
Proof.
  induction n as [|n IH]; intros nodes queue Hok Hs.
  - inv Hs; [by eexists|lia..].
  - inv Hs.
    + by eexists.
    + rewrite run_get.
      destruct (H (nodes !! k)) as (placed & -> & Hp).
      { intros Hk v Hv. by eapply Hok. }
      apply IH; [done|]. eapply sound_mono; [by apply sound_app|lia].
    + rewrite run_put. apply IH; [by apply directories_ok_insert|].
      eapply sound_mono; [by apply sound_app|lia].
Qed.

Lemma walk_requests_sound key walk :
  Forall (λ pair : string * string, Path.is_dir pair.1 = true) walk →
  sound (2 * length walk) (walk_requests key walk).
Proof.
  induction 1 as [|[d b] walk Hd _ IH]; simpl; [constructor|].
  eapply (sound_get _ (S (2 * length walk)) 0); [|constructor|lia].
  intros result Hres.
  destruct (mark_child_directory key b (default (makeNode d) result))
    as (n' & m & -> & Hn' & _).
  { destruct result as [v|]; simpl; [by eapply Hres|].
    by apply makeNode_is_directory. }
  eexists. split; [done|].
  eapply (sound_put _ (2 * length walk) 0); [done|done|constructor|lia].
Qed.

Lemma setRevisions_requests_sound revs :
  sound (setRevisions_fuel revs) (setRevisions_requests revs).
Proof.
  unfold setRevisions_fuel, setRevisions_requests.
  induction revs as [|[p r] revs IH]; [constructor|].
  cbn [fmap list_fmap sum_list sum_list_with fst snd]. unfold id at 1.
  eapply (sound_get _ (S (2 * length (ancestors p)))); [|exact IH|lia].
  intros result Hres. eexists. split; [done|].
  eapply (sound_put _ (2 * length (ancestors p)) 0); [| |constructor|lia].
  - intros Hp. simpl.
    assert (is_directory (default (makeNode p) result)) as (mb & mc & ? & ?).
    { destruct result as [v|]; simpl; [by eapply Hres|].
      by apply makeNode_is_directory. }
    by exists mb, mc.
  - apply walk_requests_sound, Forall_forall. intros [d b] Hin.
    by eapply ancestors_is_dir.
Qed.

(** X19: on a store whose directory keys hold directory nodes,
    [setRevisions] commits for every list of pairs, however the requests of
    the pairs interleave: no handler raises, the promise is fulfilled, the
    store keeps that shape and the change log is not touched. *)
Theorem setRevisions_commits (st : db) (revs : list (string * string)) :
  directories_ok (nodes st) →
  let o := setRevisions st revs in
  result o = Fulfilled None ∧
  directories_ok (nodes (store o)) ∧
  changes (store o) = changes st ∧
  trace o = [Transaction "nodes" "readwrite"].
Proof.
  intros Hok. cbv zeta. unfold setRevisions.
  destruct (run_sound _ _ _ Hok (setRevisions_requests_sound revs))
    as (nodes' & -> & Hok').
  done.
Qed.

Lemma setRevisions_commits_witness :
  let o := setRevisions (DB ∅ ∅) [("/a/x", "r1"); ("/a/", "r2"); ("/b", "r3")] in
  result o = Fulfilled None ∧
  directories_ok (nodes (store o)) ∧
  changes (store o) = changes (DB ∅ ∅) ∧
  trace o = [Transaction "nodes" "readwrite"].
Proof.
  apply (setRevisions_commits (DB ∅ ∅)), directories_ok_empty.
Defined.

End request_queue.

(** ** Opening and resetting the database *)

Section database_lifecycle.
Import IndexedDB.

Lemma createObjectStore_keeps {A} (db db' : database A) name :
  createObjectStore db name = Some db' →
  db !! name = None ∧ db' = <[name := ∅]> db ∧
  ∀ other s, db !! other = Some s → db' !! other = Some s.
Proof.
  unfold createObjectStore. case_bool_decide as Hn; [done|]. intros [= <-].
  apply eq_None_not_Some in Hn. split; [done|]. split; [done|].
  intros other s Hs. rewrite lookup_insert_ne; [done|]. intros <-. congruence.
Qed.

(** X20: an upgrade that completes drops nothing: every store of the old
    database is in the new one with the same records, and [changes] is new
    and empty.  From version 1 the store [nodes] is the old one; from any
    other version it is new and empty.  The upgrade raises exactly when a
    store it creates is there already. *)
Theorem upgrade_keeps_stores {A} (oldVersion : nat) (db : database A) :
  (∀ db', onupgradeneeded oldVersion db = Some db' →
     (∀ name s, db !! name = Some s → db' !! name = Some s) ∧
     db' !! "changes" = Some ∅ ∧
     (oldVersion = 1 → db' !! "nodes" = db !! "nodes") ∧
     (oldVersion ≠ 1 → db' !! "nodes" = Some ∅)) ∧
  (onupgradeneeded oldVersion db = None ↔
     is_Some (db !! "changes") ∨ (oldVersion ≠ 1 ∧ is_Some (db !! "nodes"))).
Proof.
  unfold onupgradeneeded. split.
  - intros db' Hup. case_bool_decide as Hv.
    + destruct (createObjectStore db "nodes") as [db1|] eqn:H1; [|done].
      simpl in Hup.
      apply createObjectStore_keeps in H1 as (Hn & -> & Hk1).
      apply createObjectStore_keeps in Hup as (Hc & -> & Hk2).
      split; [by intros; apply Hk2, Hk1|]. split; [apply lookup_insert_eq|].
      split; [done|]. intros _. rewrite lookup_insert_ne by done.
      apply lookup_insert_eq.
    + simpl in Hup.
      apply createObjectStore_keeps in Hup as (Hc & -> & Hk).
      split; [done|]. split; [apply lookup_insert_eq|].
      split; [|done]. intros _. by rewrite lookup_insert_ne.
  - unfold createObjectStore. case_bool_decide as Hv.
    + case_bool_decide as Hn; simpl.
      { split; [by right|done]. }
      rewrite lookup_insert_ne by done. case_bool_decide as Hc.
      * split; [by left|done].
      * split; [done|]. intros [?|[_ ?]]; done.
    + simpl. case_bool_decide as Hc.
      * split; [by left|done].
      * split; [done|]. intros [?|[? _]]; done.
Qed.

(** X21: [reset] never hands back a usable database.  [open] reports
    success as [callback(null, db)], and the callback [reset] gives it reads
    [other.db] from the first argument: when the database was opened this
    raises, [this.db] stays the closed handle and [callback] is not called;
    [callback] is called only when opening failed or timed out, and then
    [this.db] is [undefined]. *)
Theorem reset_never_returns_database {H} (old : H) (deleted : bool)
    (o : open_outcome H) :
  let r := reset old deleted o in
  (called_back r = true →
     deleted = true ∧ self_db r = None ∧ raised r = false ∧
     ∀ db, o ≠ Opened db) ∧
  (∀ db, deleted = true → o = Opened db →
     raised r = true ∧ called_back r = false ∧ self_db r = Some old) ∧
  (deleted = false → r = ResetOutcome (Some old) false false).
Proof.
  cbv zeta. destruct deleted, o; simpl; repeat split; try done.
Qed.

End database_lifecycle.
